(** * Peer registry and sync manager of the Theta ledger: a shallow embedding

    The development follows [p2p/peer/peer_table.go] (the [PeerTable]) and the
    [netsync] sync manager that is shipped in the same source file.  Go
    pointers to peers are locations of an explicit heap, Go maps are [gmap]s,
    the slice [pt.peers] is a list, and every run-time panic the code can
    raise (slice bounds, index out of range, [rand.Intn] on a non-positive
    bound, the [Panic] log call) is an explicit outcome. *)

From Stdlib.Strings Require Byte.
From Stdlib Require Import ZArith Lia String Ascii.
From stdpp Require Import base gmap list strings pretty.

(** ** Outcomes *)

(** A Go call either returns or panics. *)
Inductive Res (A : Type) : Type :=
  | Ok (a : A)
  | Panic (msg : string).
Arguments Ok {A} a.
Arguments Panic {A} msg%_string.

Definition bindR {A B} (r : Res A) (k : A -> Res B) : Res B :=
  match r with
  | Ok a => k a
  | Panic m => Panic m
  end.

Notation "'do' x <- r ; k" := (bindR r (fun x => k))
  (at level 10, x pattern, r at level 100, k at level 200,
   format "'[v' 'do'  x  <-  r ; '/' k ']'").

Definition isOk {A} (r : Res A) : bool :=
  match r with Ok _ => true | Panic _ => false end.

(** ** Peers and the heap *)

Module PeerRegistry.

(** A non-nil [*Peer]: the location of a peer object. *)
Abbreviation ptr := nat (only parsing).

(** A [*nu.NetAddress].  [addrMap] is keyed by the pointer itself, so only
    the identity of the address object matters. *)
Abbreviation NetAddr := nat (only parsing).

(** Modelled from the spec: the [Peer] struct is declared outside this file;
    the spec lists a stable string identity, a network address, a
    directionality flag, a seed flag and a lifecycle state (running or
    stopped). *)
Record Peer : Type := mkPeer {
  peer_id : string;
  netAddress : NetAddr;
  isOutbound : bool;
  isSeed : bool;
  running : bool
}.

(** Go is memory safe: every non-nil pointer designates a live object, so the
    heap is total on [ptr]. *)
Definition Heap := ptr -> Peer.

Definition upd (h : Heap) (p : ptr) (v : Peer) : Heap :=
  fun q => if decide (q = p) then v else h q.

(** Modelled from the spec: the accessors of [Peer] ([ID], [NetAddress],
    [IsOutbound], [IsSeed]) read the attribute of the same name. *)
Definition ID (h : Heap) (p : ptr) : string := peer_id (h p).
Definition NetAddress (h : Heap) (p : ptr) : NetAddr := netAddress (h p).
Definition IsOutbound (h : Heap) (p : ptr) : bool := isOutbound (h p).
Definition IsSeed (h : Heap) (p : ptr) : bool := isSeed (h p).

(** Modelled from the spec: [SetSeed] writes the seed flag. *)
Definition SetSeed (p : ptr) (b : bool) (h : Heap) : Heap :=
  upd h p (mkPeer (peer_id (h p)) (netAddress (h p)) (isOutbound (h p)) b
                  (running (h p))).

(** Modelled from the spec: [Stop] stops the peer's underlying connection;
    the peer is marked stopped.  Its result is discarded by the table. *)
Definition Stop (p : ptr) (h : Heap) : Heap :=
  upd h p (mkPeer (peer_id (h p)) (netAddress (h p)) (isOutbound (h p))
                  (isSeed (h p)) false).

(** ** The table *)

(** [PeerTable]: the mutex is not modelled, every method below is one
    critical section.  The backing array of [peers] is never shared with a
    caller ([GetAllPeers] and [GetSelection] copy), so the slice is its list
    of elements; the one place where the code keeps two views of the array,
    the loop of [DeletePeer], is modelled with the array explicit. *)
Record PeerTable : Type := mkTable {
  peerMap : gmap string ptr;
  peers : list ptr;
  addrMap : gmap NetAddr ptr
}.

Record World : Type := mkWorld {
  heap : Heap;
  table : PeerTable
}.

Definition CreatePeerTable : PeerTable := mkTable ∅ [] ∅.

Definition set_peers (l : list ptr) (t : PeerTable) : PeerTable :=
  mkTable (peerMap t) l (addrMap t).

(** *** AddPeer *)

(** The [range] loop of [AddPeer] from index [i] on, [rest] being the
    elements not yet visited.  The first element whose identity is that of
    [peer] is stopped, [peer] inherits its seed flag when it is outbound, slot
    [i] is overwritten, and the loop breaks. *)
Fixpoint AddPeer_range (peer : ptr) (i : nat) (rest : list ptr) (w : World)
  : World :=
  match rest with
  | [] => w
  | p :: rest' =>
      if decide (ID (heap w) p = ID (heap w) peer) then
        let h1 := Stop p (heap w) in
        let h2 := if IsOutbound h1 p then SetSeed peer (IsSeed h1 p) h1
                  else h1 in
        mkWorld h2 (set_peers (<[i := peer]> (peers (table w))) (table w))
      else AddPeer_range peer (S i) rest' w
  end.

Definition AddPeer (peer : ptr) (w : World) : bool * World :=
  let w1 :=
    match peerMap (table w) !! ID (heap w) peer with
    | Some _ => AddPeer_range peer 0 (peers (table w)) w
    | None =>
        mkWorld (heap w) (set_peers (peers (table w) ++ [peer]) (table w))
    end in
  let h := heap w1 in
  let t := table w1 in
  (true,
   mkWorld h (mkTable (<[ID h peer := peer]> (peerMap t)) (peers t)
                      (<[NetAddress h peer := peer]> (addrMap t)))).

(** *** DeletePeer *)

(** The [range] loop of [DeletePeer].  [range] evaluates [pt.peers] once:
    the loop runs over the [n] slots the slice had on entry and reads slot
    [idx] of the backing array when it gets there.  [arr] holds those [n]
    slots, [m] is the current length of [pt.peers], which shares the array.
    [append(pt.peers[:idx], pt.peers[idx+1:]...)] moves the slots
    [idx+1 .. m-1] one place down inside the array and shortens [pt.peers] by
    one; the slice expression [pt.peers[idx+1:]] panics when [idx+1] exceeds
    the current length.  [k] counts the iterations still to run. *)
Fixpoint DeletePeer_range (h : Heap) (peerID : string) (k idx : nat)
    (arr : list ptr) (m : nat) : Res (list ptr * nat) :=
  match k with
  | 0 => Ok (arr, m)
  | S k' =>
      match arr !! idx with
      | None => Panic "index out of range"
      | Some p =>
          if decide (ID h p = peerID) then
            if decide (idx + 1 <= m) then
              let arr' := take idx arr
                          ++ take (m - (idx + 1)) (drop (idx + 1) arr)
                          ++ drop (m - 1) arr in
              DeletePeer_range h peerID k' (S idx) arr' (m - 1)
            else Panic "slice bounds out of range"
          else DeletePeer_range h peerID k' (S idx) arr m
      end
  end.

Definition DeletePeer (peerID : string) (w : World) : Res World :=
  let t := table w in
  match peerMap t !! peerID with
  | None => Ok w
  | Some peer =>
      let pm := delete peerID (peerMap t) in
      let am := delete (NetAddress (heap w) peer) (addrMap t) in
      let n := length (peers t) in
      do (arr, m) <- DeletePeer_range (heap w) peerID n 0 (peers t) n;
      Ok (mkWorld (heap w) (mkTable pm (take m arr) am))
  end.

(** *** PurgeOldestPeer *)

(** The scan of [PurgeOldestPeer]: [peer] is overwritten at every non-seed
    slot ([pt.peers[idx]] is the element [pr] the loop is at). *)
Fixpoint Purge_range (h : Heap) (rest : list ptr) (peer : option ptr)
  : option ptr :=
  match rest with
  | [] => peer
  | pr :: rest' =>
      Purge_range h rest' (if negb (IsSeed h pr) then Some pr else peer)
  end.

Definition PurgeOldestPeer (w : World) : option ptr * World :=
  let t := table w in
  match Purge_range (heap w) (peers t) None with
  | Some peer =>
      (Some peer,
       mkWorld (heap w)
         (mkTable (delete (ID (heap w) peer) (peerMap t)) (drop 1 (peers t))
                  (addrMap t)))
  | None => (None, w)
  end.

(** *** Lookups *)

Definition GetPeer (peerID : string) (w : World) : option ptr :=
  peerMap (table w) !! peerID.

Definition GetPeerWithAddr (a : NetAddr) (w : World) : option ptr :=
  addrMap (table w) !! a.

Definition PeerExists (peerID : string) (w : World) : bool :=
  bool_decide (is_Some (peerMap (table w) !! peerID)).

Definition PeerAddrExists (a : NetAddr) (w : World) : bool :=
  bool_decide (is_Some (addrMap (table w) !! a)).

Definition GetTotalNumPeers (w : World) : nat := length (peers (table w)).

(** [GetAllPeers] returns a fresh slice holding the same pointers. *)
Definition GetAllPeers (w : World) : list ptr := peers (table w).

(** *** GetSelection *)

Local Open Scope Z_scope.

Definition getSelectionPercent : Z := 23.
Definition minGetSelection : Z := 32.
Definition maxGetSelection : Z := 250.

(** Go's [int] is a 64-bit two's complement integer on the platforms the
    node runs on; arithmetic wraps. *)
Definition wrap64 (z : Z) : Z := (z + 2 ^ 63) mod 2 ^ 64 - 2 ^ 63.

(** Modelled from the spec: [mm.MaxInt] and [mm.MinInt] of [common/math] are
    the maximum and the minimum of two [int]s. *)
Definition MaxInt (a b : Z) : Z := if b <? a then a else b.
Definition MinInt (a b : Z) : Z := if a <? b then a else b.

(** [numPeers] as [GetSelection] computes it from [len(peers)]: the product
    wraps, [/] truncates toward zero. *)
Definition numPeersOf (len : Z) : Z :=
  let numPeers :=
    MaxInt (MinInt minGetSelection len)
           (wrap64 (len * getSelectionPercent) ÷ 100) in
  MinInt maxGetSelection numPeers.

Local Close Scope Z_scope.

(** [rand.Intn(n)] panics unless [0 < n] and otherwise returns a value of
    [[0, n)].  [raw] is the draw of the global source; every value of the
    range is reached by some draw. *)
Definition Intn (raw : nat) (n : Z) : Res nat :=
  if decide (n <= 0)%Z then Panic "invalid argument to Intn"
  else Ok (raw mod Z.to_nat n).

(** [peers[i], peers[j] = peers[j], peers[i]]: both operands are read (and
    bounds checked) first, then slot [i] and slot [j] are written in that
    order. *)
Definition swap {A} (i j : nat) (l : list A) : Res (list A) :=
  match l !! j, l !! i with
  | Some pj, Some pi => Ok (<[j := pi]> (<[i := pj]> l))
  | _, _ => Panic "index out of range"
  end.

(** The partial Fisher-Yates loop: [k] iterations remain, [i] is the loop
    counter, [rnd i] is the draw of the [i]-th call of [rand.Intn].  Neither
    the loop nor the swap looks at the elements, so both are stated for any
    element type; [GetSelection] runs them on [[]*Peer]. *)
Fixpoint shuffle {A} (rnd : nat -> nat) (k i : nat) (l : list A)
  : Res (list A) :=
  match k with
  | 0 => Ok l
  | S k' =>
      do r <- Intn (rnd i) (Z.of_nat (length l) - Z.of_nat i);
      let j := r + i in
      do l' <- swap i j l;
      shuffle rnd k' (S i) l'
  end.

(** [s[:n]] of a slice whose capacity equals its length. *)
Definition slice_to (n : Z) (l : list ptr) : Res (list ptr) :=
  if decide (0 <= n <= Z.of_nat (length l))%Z then Ok (take (Z.to_nat n) l)
  else Panic "slice bounds out of range".

Record PeerIDAddress : Type := mkPeerIDAddress {
  pia_ID : string;
  pia_Addr : NetAddr
}.

Definition idAddr (h : Heap) (p : ptr) : PeerIDAddress :=
  mkPeerIDAddress (ID h p) (netAddress (h p)).

(** [GetSelection]: the result is the returned slice ([nil] is the empty
    list) together with the world it leaves.  The shuffle runs on [local],
    the array obtained by [make] and [copy]; [pt.peers] is only read. *)
Definition GetSelection (rnd : nat -> nat) (w : World)
  : Res (list PeerIDAddress * World) :=
  match peers (table w) with
  | [] => Ok ([], w)
  | _ =>
      let local := peers (table w) in
      let numPeers := numPeersOf (Z.of_nat (length local)) in
      do local <- shuffle rnd (Z.to_nat numPeers) 0 local;
      do local <- slice_to numPeers local;
      Ok (idAddr (heap w) <$> local, w)
  end.

(** *** Sequences of registry operations *)

Inductive Op : Type :=
  | OpAddPeer (peer : ptr)
  | OpDeletePeer (peerID : string)
  | OpPurgeOldestPeer.

Definition step (o : Op) (w : World) : Res World :=
  match o with
  | OpAddPeer peer => Ok (AddPeer peer w).2
  | OpDeletePeer peerID => DeletePeer peerID w
  | OpPurgeOldestPeer => Ok (PurgeOldestPeer w).2
  end.

Fixpoint run (ops : list Op) (w : World) : Res World :=
  match ops with
  | [] => Ok w
  | o :: ops' => do w' <- step o w; run ops' w'
  end.

(** *** The consistency of the three views *)

(** A peer appears in the identity map (the address map) when the map sends
    its identity (its address) to it. *)
Definition inPeerMap (w : World) (p : ptr) : Prop :=
  peerMap (table w) !! ID (heap w) p = Some p.

Definition inAddrMap (w : World) (p : ptr) : Prop :=
  addrMap (table w) !! NetAddress (heap w) p = Some p.

Definition consistent (w : World) : Prop :=
  (∀ p, p ∈ peers (table w) → inPeerMap w p ∧ inAddrMap w p) ∧
  (∀ k p, peerMap (table w) !! k = Some p → p ∈ peers (table w)) ∧
  (∀ a p, addrMap (table w) !! a = Some p → p ∈ peers (table w)).

(** A registry is well formed when its views are consistent, every key of
    a map is the identity (the address) of the peer stored under it, and no
    peer holds two slots of the sequence. *)
Definition wf (w : World) : Prop :=
  consistent w ∧
  (∀ k p, peerMap (table w) !! k = Some p → ID (heap w) p = k) ∧
  (∀ a p, addrMap (table w) !! a = Some p → NetAddress (heap w) p = a) ∧
  NoDup (peers (table w)).

(** [peer] is new to the registry: neither its identity nor its address is
    a key of the maps. *)
Definition fresh (peer : ptr) (w : World) : Prop :=
  peerMap (table w) !! ID (heap w) peer = None ∧
  addrMap (table w) !! NetAddress (heap w) peer = None.

(** Sequences made of [DeletePeer] and of [AddPeer] on peers that are new
    when they are added. *)
Fixpoint addsFreshOrDeletes (ops : list Op) (w : World) : Prop :=
  match ops with
  | [] => True
  | OpAddPeer peer :: ops' =>
      fresh peer w ∧ addsFreshOrDeletes ops' (AddPeer peer w).2
  | OpDeletePeer peerID :: ops' =>
      ∀ w', DeletePeer peerID w = Ok w' → addsFreshOrDeletes ops' w'
  | OpPurgeOldestPeer :: _ => False
  end.

(** *** Replacement of a duplicate *)

(** What [AddPeer(peer)] owes a registry [w] whose slot [i] holds [old], a
    peer with the identity of [peer]; [res] is what the call returned and the
    world it left.  [old] is stopped, [peer] carries the seed flag of [old]
    exactly when [old] is outbound, slot [i] now holds [peer] and no slot is
    added, both maps send the identity and the address of [peer] to it, and
    the call reports success. *)
Definition replaces (w : World) (peer old : ptr) (i : nat)
    (res : bool * World) : Prop :=
  res.1 = true ∧
  running (heap res.2 old) = false ∧
  IsSeed (heap res.2) peer =
    (if IsOutbound (heap w) old then IsSeed (heap w) old
     else IsSeed (heap w) peer) ∧
  peers (table w) !! i = Some old ∧
  peers (table res.2) = <[i := peer]> (peers (table w)) ∧
  length (peers (table res.2)) = length (peers (table w)) ∧
  peerMap (table res.2) = <[ID (heap w) peer := peer]> (peerMap (table w)) ∧
  addrMap (table res.2)
    = <[NetAddress (heap w) peer := peer]> (addrMap (table w)).

End PeerRegistry.

(** ** The sync manager *)

Module NetSync.

Definition Bytes := list Byte.byte.

#[global] Instance byte_eq_dec : EqDecision Byte.byte := Byte.byte_eq_dec.

(** *** Hexadecimal strings *)

(** [encoding/hex] of the Go library: [DecodeString] accepts digits and
    letters of either case and fails on any other character and on an odd
    length; [EncodeToString] writes lower-case digits. *)
Definition fromHexChar (c : ascii) : option N :=
  let n := N_of_ascii c in
  if ((48 <=? n) && (n <=? 57))%N then Some (n - 48)%N
  else if ((97 <=? n) && (n <=? 102))%N then Some (n - 97 + 10)%N
  else if ((65 <=? n) && (n <=? 70))%N then Some (n - 65 + 10)%N
  else None.

Fixpoint DecodeString (s : string) : option Bytes :=
  match s with
  | EmptyString => Some []
  | String _ EmptyString => None
  | String a (String b rest) =>
      match fromHexChar a, fromHexChar b, DecodeString rest with
      | Some hi, Some lo, Some bs =>
          Some (byte_of_ascii (ascii_of_N (hi * 16 + lo)) :: bs)
      | _, _, _ => None
      end
  end.

Definition hexDigit (n : N) : ascii :=
  if (n <? 10)%N then ascii_of_N (48 + n) else ascii_of_N (97 + (n - 10)).

Fixpoint EncodeToString (bs : Bytes) : string :=
  match bs with
  | [] => EmptyString
  | b :: bs' =>
      let n := Byte.to_N b in
      String (hexDigit (n / 16)%N) (String (hexDigit (n mod 16)%N)
             (EncodeToString bs'))
  end.

(** *** Messages *)

(** [common.ChannelIDEnum]: the five channels the manager subscribes to;
    [ChannelIDOther] is any other value of the enumeration. *)
Inductive ChannelIDEnum : Type :=
  | ChannelIDHeader
  | ChannelIDBlock
  | ChannelIDProposal
  | ChannelIDCC
  | ChannelIDVote
  | ChannelIDOther (n : nat).

Record InventoryRequest : Type := mkInventoryRequest {
  ireq_ChannelID : ChannelIDEnum;
  Start : string;
  End_ : string
}.

Record InventoryResponse : Type := mkInventoryResponse {
  iresp_ChannelID : ChannelIDEnum;
  iresp_Entries : list string
}.

Record DataRequest : Type := mkDataRequest {
  dreq_ChannelID : ChannelIDEnum;
  dreq_Entries : list string
}.

Record DataResponse : Type := mkDataResponse {
  dresp_ChannelID : ChannelIDEnum;
  Payload : Bytes
}.

(** Modelled from the spec: [core.Block], [blockchain.ExtendedBlock],
    [core.Vote], [core.CommitCertificate] and [core.Proposal] are declared
    outside this file; they carry the fields the manager reads.  A nil
    [vote.Block] or [p.CommitCertificate] is [None]. *)
Record Block : Type := mkBlock {
  Hash : Bytes;
  Parent : Bytes
}.

Record ExtendedBlock : Type := mkExtendedBlock {
  eb_Block : Block;
  Children : list Bytes
}.

Record Vote : Type := mkVote {
  vote_Block : option Block;
  vote_ID : string
}.

Record CommitCertificate : Type := mkCommitCertificate {
  Votes : list Vote
}.

Record Proposal : Type := mkProposal {
  prop_Block : Block;
  prop_CommitCertificate : option CommitCertificate
}.

(** The dynamic type of [message.Content] (an [interface{}]):
    [ContentOther] is a value of any type other than the four the type
    switch of [processMessage] lists. *)
Inductive Content : Type :=
  | ContentInventoryRequest (c : InventoryRequest)
  | ContentInventoryResponse (c : InventoryResponse)
  | ContentDataRequest (c : DataRequest)
  | ContentDataResponse (c : DataResponse)
  | ContentOther (typeName : string).

Record Message : Type := mkMessage {
  PeerID : string;
  msg_ChannelID : ChannelIDEnum;
  msg_Content : Content
}.

(** *** Collaborators and effects *)

(** What the manager reaches through its fields: [chain.FindBlock] and the
    [rlp] codec fail with an error ([None]) or return a value;
    [dispatcher.MaxInventorySize] is a constant of the dispatcher. *)
Record SyncManager : Type := mkSyncManager {
  FindBlock : Bytes -> option ExtendedBlock;
  EncodeToBytes : Block -> option Bytes;
  DecodeBlock : Bytes -> option Block;
  DecodeVote : Bytes -> option Vote;
  DecodeProposal : Bytes -> option Proposal;
  MaxInventorySize : nat
}.

Inductive Level : Type := Debug | Error.

(** What [consumer.AddMessage] receives. *)
Inductive Consumed : Type :=
  | ConsumedVote (v : Vote)
  | ConsumedBlock (b : Block).

(** The calls a handler makes on its collaborators, in program order. *)
Inductive Effect : Type :=
  | Log (lvl : Level) (msg : string)
  | SendInventory (peerIDs : list string) (resp : InventoryResponse)
  | SendData (peerIDs : list string) (resp : DataResponse)
  | AddHash (hash : Bytes) (peerIDs : list string)
  | AddBlock (b : Block)
  | AddMessage (c : Consumed).

Definition Trace := list Effect.

(** *** Inventory requests *)

Definition sendInventory (peerID : string) (blocks : list string) : Trace :=
  [Log Debug "Sending inventory response";
   SendInventory [peerID] (mkInventoryResponse ChannelIDBlock blocks)].

(** The chain walk of [handleInvRequest] with [k] iterations left and what
    follows it.  The second test of [err] in the loop body can never fire
    ([err] was nil three lines above) and has no counterpart here. *)
Fixpoint handleInvRequest_loop (m : SyncManager) (peerID : string) (k : nat)
    (curr end_ : Bytes) (blocks : list string) : Trace :=
  match k with
  | 0 => sendInventory peerID blocks
  | S k' =>
      let blocks := blocks ++ [EncodeToString curr] in
      match FindBlock m curr with
      | None => [Log Error "Failed to find block with given hash"]
      | Some block =>
          match Children block with
          | [] => sendInventory peerID blocks
          | child :: _ =>
              let curr := child in
              if decide (curr = end_) then
                sendInventory peerID (blocks ++ [EncodeToString end_])
              else handleInvRequest_loop m peerID k' curr end_ blocks
          end
      end
  end.

Definition handleInvRequest (m : SyncManager) (peerID : string)
    (req : InventoryRequest) : Trace :=
  Log Debug "Received inventory request" ::
  match ireq_ChannelID req with
  | ChannelIDBlock =>
      if decide (Start req = EmptyString) then
        [Log Error "No start hash is specified in InvRequest"]
      else
        match DecodeString (Start req) with
        | None => [Log Error "Failed to decode start in InvRequest"]
        | Some curr =>
            match DecodeString (End_ req) with
            | None => [Log Error "Failed to decode end in InvRequest"]
            | Some end_ =>
                handleInvRequest_loop m peerID (MaxInventorySize m) curr end_
                                      []
            end
        end
  | _ => [Log Error "Unsupported channelID in received InvRequest"]
  end.

(** *** Inventory responses *)

Fixpoint handleInvResponse_range (peerID : string) (entries : list string)
  : Trace :=
  match entries with
  | [] => []
  | hashStr :: rest =>
      match DecodeString hashStr with
      | None => [Log Error "Failed to parse hash string in InvResponse"]
      | Some hash =>
          AddHash hash [peerID] :: handleInvResponse_range peerID rest
      end
  end.

Definition handleInvResponse (m : SyncManager) (peerID : string)
    (resp : InventoryResponse) : Trace :=
  Log Debug "Received InvResponse" ::
  match iresp_ChannelID resp with
  | ChannelIDBlock => handleInvResponse_range peerID (iresp_Entries resp)
  | _ => [Log Error "Unsupported channelID in received InvRequest"]
  end.

(** *** Data requests *)

(** The [range] loop of [handleDataRequest]: each of the three failures
    logs and returns from the handler. *)
Fixpoint handleDataRequest_range (m : SyncManager) (peerID : string)
    (entries : list string) : Trace :=
  match entries with
  | [] => []
  | hashStr :: rest =>
      match DecodeString hashStr with
      | None => [Log Error "Failed to parse hash string in DataRequest"]
      | Some hash =>
          match FindBlock m hash with
          | None => [Log Error "Failed to find hash string locally"]
          | Some block =>
              match EncodeToBytes m (eb_Block block) with
              | None => [Log Error "Failed to encode block"]
              | Some payload =>
                  Log Debug "Sending requested block"
                  :: SendData [peerID] (mkDataResponse ChannelIDBlock payload)
                  :: handleDataRequest_range m peerID rest
              end
          end
      end
  end.

Definition handleDataRequest (m : SyncManager) (peerID : string)
    (data : DataRequest) : Trace :=
  match dreq_ChannelID data with
  | ChannelIDBlock => handleDataRequest_range m peerID (dreq_Entries data)
  | _ => [Log Error "Unsupported channelID in received DataRequest"]
  end.

(** *** Content handlers *)

Definition handleBlock (block : Block) : Trace :=
  [Log Debug "Received block"; AddBlock block].

(** Every vote of the certificate goes to the consumer, in order. *)
Definition handleCC (cc : CommitCertificate) : Trace :=
  (λ vote, AddMessage (ConsumedVote vote)) <$> Votes cc.

Definition handleProposal (p : Proposal) : Trace :=
  match prop_CommitCertificate p with
  | Some cc => handleCC cc
  | None => []
  end ++ handleBlock (prop_Block p).

Definition handleVote (vote : Vote) : Trace :=
  match vote_Block vote with
  | Some b => [AddHash (Hash b) []]
  | None => []
  end ++ [AddMessage (ConsumedVote vote)].

Definition handleDataResponse (m : SyncManager) (peerID : string)
    (data : DataResponse) : Trace :=
  match dresp_ChannelID data with
  | ChannelIDBlock =>
      match DecodeBlock m (Payload data) with
      | None => [Log Error "Failed to decode DataResponse payload"]
      | Some block => handleBlock block
      end
  | ChannelIDVote =>
      match DecodeVote m (Payload data) with
      | None => [Log Error "Failed to decode DataResponse payload"]
      | Some vote => handleVote vote
      end
  | ChannelIDProposal =>
      match DecodeProposal m (Payload data) with
      | None => [Log Error "Failed to decode DataResponse payload"]
      | Some proposal => handleProposal proposal
      end
  | _ => [Log Error "Unsupported channelID in received DataResponse"]
  end.

(** *** Dispatch *)

(** [processMessage]: the default branch of the type switch logs at panic
    level, which panics. *)
Definition processMessage (m : SyncManager) (message : Message) : Res Trace :=
  match msg_Content message with
  | ContentInventoryRequest content =>
      Ok (handleInvRequest m (PeerID message) content)
  | ContentInventoryResponse content =>
      Ok (handleInvResponse m (PeerID message) content)
  | ContentDataRequest content =>
      Ok (handleDataRequest m (PeerID message) content)
  | ContentDataResponse content =>
      Ok (handleDataResponse m (PeerID message) content)
  | ContentOther _ => Panic "Received unknown message"
  end.

(** *** Serving one hash *)

(** What the body of the loop of [handleDataRequest] sends for one entry
    when none of its three steps fails: decode the hash, find the block,
    encode it. *)
Definition serve (m : SyncManager) (hashStr : string) : option DataResponse :=
  match DecodeString hashStr with
  | None => None
  | Some hash =>
      match FindBlock m hash with
      | None => None
      | Some block =>
          match EncodeToBytes m (eb_Block block) with
          | None => None
          | Some payload => Some (mkDataResponse ChannelIDBlock payload)
          end
      end
  end.

(** What the handler does for an entry it serves. *)
Definition serveTrace (peerID : string) (resp : DataResponse) : Trace :=
  [Log Debug "Sending requested block"; SendData [peerID] resp].

(** The payloads are of one of the four shapes of the type switch. *)
Definition recognized (c : Content) : bool :=
  match c with
  | ContentOther _ => false
  | _ => true
  end.

(** *** Reading a trace *)

Definition sentInventories (tr : Trace) : list InventoryResponse :=
  omap (λ e, match e with SendInventory _ resp => Some resp | _ => None end)
       tr.

Definition sentData (tr : Trace) : list DataResponse :=
  omap (λ e, match e with SendData _ resp => Some resp | _ => None end) tr.

End NetSync.

(** ** Concrete registries and chains *)

Module Fixtures.
Import PeerRegistry.

(** Peer 1 is an outbound seed "A", peer 2 an inbound peer "B", peer 3 an
    inbound peer that carries the identity "A" again, peer 4 an outbound
    peer "C", peer 5 an inbound peer that carries the identity "B" again. *)
Definition heap0 : Heap := fun p =>
  match p with
  | 1 => mkPeer "A" 11 true true true
  | 2 => mkPeer "B" 12 false false true
  | 3 => mkPeer "A" 13 false false true
  | 4 => mkPeer "C" 14 true false true
  | 5 => mkPeer "B" 15 false false true
  | _ => mkPeer "" 0 false false true
  end.

Definition world0 : World := mkWorld heap0 CreatePeerTable.

(** The registry after [AddPeer(1)], [AddPeer(2)]. *)
Definition world12 : World :=
  mkWorld heap0 (mkTable (<["B" := 2]> (<["A" := 1]> ∅)) [1; 2]
                         (<[12 := 2]> (<[11 := 1]> ∅))).

(** The registry after [AddPeer(1)], [AddPeer(2)], [PurgeOldestPeer()]. *)
Definition worldPurged : World :=
  mkWorld heap0 (mkTable (<["A" := 1]> ∅) [2]
                         (<[12 := 2]> (<[11 := 1]> ∅))).

(** A registry of [n] inbound non-seed peers, built by [n] calls of
    [AddPeer] on the empty table; peer [p] has the decimal numeral of [p] as
    its identity and the address [p]. *)
Definition heapSeq : Heap := fun p => mkPeer (pretty p) p false false true.

Definition registry (n : nat) : World :=
  foldl (λ w p, (AddPeer p w).2) (mkWorld heapSeq CreatePeerTable) (seq 0 n).

(** A source of draws for [rand.Intn]. *)
Definition draws : nat → nat := λ i, 7 * i + 3.

End Fixtures.

Module ChainFixtures.
Import NetSync.

(** An unbounded chain: the block of hash [h] has the single child
    [h ++ [00]].  Every block encodes to its hash. *)
Definition lineChain (max : nat) : SyncManager :=
  mkSyncManager
    (λ h, Some (mkExtendedBlock (mkBlock h (removelast h)) [h ++ [Byte.x00]]))
    (λ b, Some (Hash b))
    (λ payload, Some (mkBlock payload (removelast payload)))
    (λ _, None)
    (λ _, None)
    max.

(** The hash made of [n] zero bytes. *)
Definition zeros (n : nat) : Bytes := replicate n Byte.x00.

(** A chain of three blocks, 0a -> 0b -> 0c.  The block 0c cannot be
    encoded. *)
Definition chainABC (max : nat) : SyncManager :=
  mkSyncManager
    (λ h, if decide (h = [Byte.x0a]) then
            Some (mkExtendedBlock (mkBlock h []) [[Byte.x0b]])
          else if decide (h = [Byte.x0b]) then
            Some (mkExtendedBlock (mkBlock h [Byte.x0a]) [[Byte.x0c]])
          else if decide (h = [Byte.x0c]) then
            Some (mkExtendedBlock (mkBlock h [Byte.x0b]) [])
          else None)
    (λ b, if decide (Hash b = [Byte.x0c]) then None else Some (Hash b))
    (λ payload, Some (mkBlock payload []))
    (λ _, None)
    (λ _, None)
    max.

End ChainFixtures.

(** ** Observations on registries and traces *)

Module Observations.
Import PeerRegistry NetSync.

(** [AddPeer] on each peer of [l], in order. *)
Definition AddPeers (l : list ptr) (w : World) : World :=
  foldl (λ w peer, (AddPeer peer w).2) w l.

Definition isLog (e : Effect) : bool :=
  match e with Log _ _ => true | _ => false end.

(** An effect that goes out through the dispatcher. *)
Definition isSend (e : Effect) : bool :=
  match e with
  | SendInventory _ _ => true
  | SendData _ _ => true
  | _ => false
  end.

(** An effect that hands something to the request manager or to the
    consumer. *)
Definition isHandOff (e : Effect) : bool :=
  match e with
  | AddHash _ _ => true
  | AddBlock _ => true
  | AddMessage _ => true
  | _ => false
  end.

(** The calls of [requestMgr.AddHash], of [requestMgr.AddBlock] and of
    [consumer.AddMessage] in a trace, in order. *)
Definition registered (tr : Trace) : list (Bytes * list string) :=
  omap (λ e, match e with AddHash h ps => Some (h, ps) | _ => None end) tr.

Definition resolved (tr : Trace) : list Block :=
  omap (λ e, match e with AddBlock b => Some b | _ => None end) tr.

Definition consumed (tr : Trace) : list Consumed :=
  omap (λ e, match e with AddMessage c => Some c | _ => None end) tr.

(** [hs] follows the chain of [m]: every hash but the first is the first
    recorded child of the block of the hash before it. *)
Fixpoint firstChildPath (m : SyncManager) (hs : list Bytes) : Prop :=
  match hs with
  | h1 :: tl =>
      match tl with
      | h2 :: _ =>
          (∃ eb, FindBlock m h1 = Some eb ∧ head (Children eb) = Some h2) ∧
          firstChildPath m tl
      | [] => True
      end
  | [] => True
  end.

(** An effect that goes to peers, or names candidate peers, concerns
    [peerID] alone. *)
Definition concernsOnly (peerID : string) (e : Effect) : Prop :=
  match e with
  | SendInventory ps _ => ps = [peerID]
  | SendData ps _ => ps = [peerID]
  | AddHash _ ps => ps = [] ∨ ps = [peerID]
  | _ => True
  end.

End Observations.

(** ** A codec for examples *)

Module CodecFixtures.
Import NetSync.

Definition blockX : Block := mkBlock [Byte.x0a] [].
Definition vote1 : Vote := mkVote (Some blockX) "v1".
Definition vote2 : Vote := mkVote None "v2".
Definition proposalX : Proposal :=
  mkProposal blockX (Some (mkCommitCertificate [vote1; vote2])).

(** A manager with an empty chain whose codec decodes the payload 01 to
    [blockX], [vote1] or [proposalX], according to the channel, and fails on
    every other payload. *)
Definition codecManager : SyncManager :=
  mkSyncManager
    (λ _, None)
    (λ _, None)
    (λ payload, if decide (payload = [Byte.x01]) then Some blockX else None)
    (λ payload, if decide (payload = [Byte.x01]) then Some vote1 else None)
    (λ payload, if decide (payload = [Byte.x01]) then Some proposalX
                else None)
    50.

End CodecFixtures.

(** * Properties of the peer registry *)

Import PeerRegistry.

Lemma Purge_range_last (h : Heap) (rest : list ptr) (acc : option ptr) :
  Purge_range h rest acc =
  match last (filter (λ q, IsSeed h q = false) rest) with
  | Some p => Some p
  | None => acc
  end.
Proof.
  revert acc. induction rest as [|pr rest IH]; intros acc; simpl; [done|].
  rewrite IH, filter_cons. case_decide as E.
  - rewrite E; simpl. rewrite last_cons. by destruct (last _).
  - by destruct (IsSeed h pr).
Qed.

Lemma last_nonseed_split (h : Heap) (l : list ptr) :
  Exists (λ q, IsSeed h q = false) l →
  ∃ l1 p l2, l = l1 ++ p :: l2 ∧ IsSeed h p = false ∧
             Forall (λ q, IsSeed h q = true) l2.
Proof.
  induction l as [|a l IH]; intros Hex; [by inversion Hex|].
  destruct (decide (Exists (λ q, IsSeed h q = false) l)) as [Hl|Hl].
  - destruct (IH Hl) as (l1 & p & l2 & -> & Hp & Hl2).
    by exists (a :: l1), p, l2.
  - apply Exists_cons in Hex as [Ha|?]; [|done].
    exists [], a, l. repeat split; [done|].
    apply not_Exists_Forall in Hl; [|intros ?; apply _].
    eapply Forall_impl; [exact Hl|]. intros q Hq; simpl in Hq.
    by destruct (IsSeed h q).
Qed.

Lemma filter_nonseed_split (h : Heap) (l1 l2 : list ptr) (p : ptr) :
  IsSeed h p = false →
  Forall (λ q, IsSeed h q = true) l2 →
  last (filter (λ q, IsSeed h q = false) (l1 ++ p :: l2)) = Some p.
Proof.
  intros Hp Hl2. rewrite filter_app, filter_cons, decide_True by done.
  assert (filter (λ q, IsSeed h q = false) l2 = []) as ->.
  { induction Hl2 as [|q l Hq _ IH]; [done|].
    rewrite filter_cons, decide_False; [done|congruence]. }
  by rewrite last_snoc.
Qed.

Lemma filter_allseed (h : Heap) (l : list ptr) :
  Forall (λ q, IsSeed h q = true) l →
  filter (λ q, IsSeed h q = false) l = [].
Proof.
  induction 1 as [|q l Hq _ IH]; [done|].
  rewrite filter_cons, decide_False; [done|congruence].
Qed.

(** The loop of [AddPeer] when slot [i] of the part still to visit is the
    first one holding the identity of [peer]. *)
Lemma AddPeer_range_first (peer old : ptr) (w : World) (rest : list ptr)
    (i0 i : nat) :
  rest !! i = Some old →
  ID (heap w) old = ID (heap w) peer →
  (∀ j q, j < i → rest !! j = Some q → ID (heap w) q ≠ ID (heap w) peer) →
  AddPeer_range peer i0 rest w =
  let h1 := Stop old (heap w) in
  let h2 := if IsOutbound h1 old then SetSeed peer (IsSeed h1 old) h1
            else h1 in
  mkWorld h2 (set_peers (<[i0 + i := peer]> (peers (table w))) (table w)).
Proof.
  revert i0 i. induction rest as [|p rest IH]; intros i0 i Hi Hid Hfirst.
  - by rewrite lookup_nil in Hi.
  - destruct i as [|i]; simpl in *.
    + injection Hi as ->. rewrite decide_True by done.
      by rewrite Nat.add_0_r.
    + rewrite decide_False by (apply (Hfirst 0); [lia|done]).
      rewrite (IH (S i0) i); [|done|done|].
      * by replace (S i0 + i) with (i0 + S i) by lia.
      * intros j q Hj Hq. apply (Hfirst (S j)); [lia|done].
Qed.

Lemma AddPeer_range_none (peer : ptr) (w : World) (rest : list ptr)
    (i0 : nat) :
  Forall (λ q, ID (heap w) q ≠ ID (heap w) peer) rest →
  AddPeer_range peer i0 rest w = w.
Proof.
  revert i0. induction rest as [|p rest IH]; intros i0 Hall; [done|].
  inversion Hall; subst. simpl. rewrite decide_False by done. by apply IH.
Qed.

(** ** PurgeOldestPeer *)

(** C3.  When the sequence holds a non-seed peer, [PurgeOldestPeer] returns
    the last non-seed peer of the sequence (the one after which only seeds
    follow), deletes the identity-map entry under that peer's identity, and
    drops the first slot of the sequence, leaving the address map and every
    peer object as they were; when every peer is a seed (or there is none),
    it returns nil and changes nothing. *)
Theorem PurgeOldestPeer_spec (w : World) :
  (Exists (λ q, IsSeed (heap w) q = false) (peers (table w)) →
   ∃ l1 p l2,
     peers (table w) = l1 ++ p :: l2 ∧
     IsSeed (heap w) p = false ∧
     Forall (λ q, IsSeed (heap w) q = true) l2 ∧
     PurgeOldestPeer w =
       (Some p,
        mkWorld (heap w)
          (mkTable (delete (ID (heap w) p) (peerMap (table w)))
                   (drop 1 (peers (table w)))
                   (addrMap (table w))))) ∧
  (Forall (λ q, IsSeed (heap w) q = true) (peers (table w)) →
   PurgeOldestPeer w = (None, w)).
Proof.
  split.
  - intros Hex. destruct (last_nonseed_split _ _ Hex) as (l1 & p & l2 & E & Hp & Hl2).
    exists l1, p, l2. repeat split; try done.
    unfold PurgeOldestPeer. rewrite Purge_range_last, E.
    by rewrite (filter_nonseed_split _ _ _ _ Hp Hl2).
  - intros Hall. unfold PurgeOldestPeer.
    by rewrite Purge_range_last, filter_allseed.
Qed.

(** On the registry [[1; 2]] (1 a seed, 2 not) the peer returned and removed
    from the identity map is 2 while the slot dropped from the sequence is
    the one of peer 1; on the registry holding the seed 1 alone nothing is
    purged. *)
Lemma PurgeOldestPeer_spec_witness :
  (∃ l1 p l2,
     [1; 2] = l1 ++ p :: l2 ∧
     IsSeed Fixtures.heap0 p = false ∧
     Forall (λ q, IsSeed Fixtures.heap0 q = true) l2 ∧
     PurgeOldestPeer Fixtures.world12 =
       (Some p,
        mkWorld Fixtures.heap0
          (mkTable (delete (ID Fixtures.heap0 p)
                           (peerMap (table Fixtures.world12)))
                   [2] (addrMap (table Fixtures.world12))))) ∧
  PurgeOldestPeer (mkWorld Fixtures.heap0 (mkTable ∅ [1] ∅)) =
    (None, mkWorld Fixtures.heap0 (mkTable ∅ [1] ∅)).
Proof.
  split.
  - apply (PurgeOldestPeer_spec Fixtures.world12).
    apply Exists_cons_tl, Exists_cons_hd. reflexivity.
  - apply (PurgeOldestPeer_spec (mkWorld Fixtures.heap0 (mkTable ∅ [1] ∅))).
    repeat constructor.
Defined.

(** The same registry, evaluated: peer 2 leaves the identity map, peer 1
    leaves the sequence. *)
Example PurgeOldestPeer_world12 :
  PurgeOldestPeer Fixtures.world12 = (Some 2, Fixtures.worldPurged).
Proof. vm_compute. reflexivity. Qed.

(** ** The three views *)

(** C1.  The three views do not stay consistent under the registry
    operations.  From the empty table, [AddPeer(1)] and [AddPeer(2)] give a
    consistent registry; [PurgeOldestPeer()] then returns peer 2, deletes
    its identity from the identity map, and drops the slot of peer 1 from
    the sequence: peer 2 stays in the sequence without an identity-map
    entry, peer 1 stays in both maps without a slot in the sequence. *)
Theorem purge_breaks_consistency :
  run [OpAddPeer 1; OpAddPeer 2] Fixtures.world0 = Ok Fixtures.world12 ∧
  consistent Fixtures.world12 ∧
  run [OpAddPeer 1; OpAddPeer 2; OpPurgeOldestPeer] Fixtures.world0
    = Ok Fixtures.worldPurged ∧
  (2 ∈ peers (table Fixtures.worldPurged) ∧
   ¬ inPeerMap Fixtures.worldPurged 2) ∧
  (inPeerMap Fixtures.worldPurged 1 ∧ inAddrMap Fixtures.worldPurged 1 ∧
   1 ∉ peers (table Fixtures.worldPurged)) ∧
  ¬ consistent Fixtures.worldPurged.
Proof.
  assert (Hbad : ¬ inPeerMap Fixtures.worldPurged 2) by (vm_compute; congruence).
  assert (Hin : 2 ∈ peers (table Fixtures.worldPurged))
    by (simpl; apply list_elem_of_here).
  split; [vm_compute; reflexivity|].
  split.
  { unfold consistent, inPeerMap, inAddrMap; simpl. split; [|split].
    - intros p Hp. apply elem_of_cons in Hp as [->|Hp].
      + split; vm_compute; reflexivity.
      + apply elem_of_cons in Hp as [->|Hp]; [|by apply elem_of_nil in Hp].
        split; vm_compute; reflexivity.
    - intros k p Hk.
      apply lookup_insert_Some in Hk as [[_ <-]|[_ Hk]];
        [apply list_elem_of_further, list_elem_of_here|].
      apply lookup_insert_Some in Hk as [[_ <-]|[_ Hk]];
        [apply list_elem_of_here|].
      by rewrite lookup_empty in Hk.
    - intros a p Ha.
      apply lookup_insert_Some in Ha as [[_ <-]|[_ Ha]];
        [apply list_elem_of_further, list_elem_of_here|].
      apply lookup_insert_Some in Ha as [[_ <-]|[_ Ha]];
        [apply list_elem_of_here|].
      by rewrite lookup_empty in Ha. }
  split; [vm_compute; reflexivity|].
  split; [done|].
  split.
  { split; [vm_compute; reflexivity|]. split; [vm_compute; reflexivity|].
    simpl. intros H1. apply elem_of_cons in H1 as [H1|H1]; [lia|].
    by apply elem_of_nil in H1. }
  intros (Hseq & _ & _). by destruct (Hseq 2 Hin).
Qed.

(** Replacing a peer by one that has another address object leaves the old
    address in the address map: after [AddPeer(1)] and [AddPeer(3)] (both
    with the identity "A") peer 1 is stopped and out of the sequence, and the
    address map still sends its address to it. *)
Example replacement_keeps_old_address :
  ∃ w, run [OpAddPeer 1; OpAddPeer 3] Fixtures.world0 = Ok w ∧
       peerMap (table w) !! "A" = Some 3 ∧
       peers (table w) = [3] ∧
       addrMap (table w) !! 11 = Some 1 ∧
       running (heap w 1) = false ∧
       IsSeed (heap w) 3 = true ∧
       ¬ consistent w.
Proof.
  eexists. split; [reflexivity|].
  repeat (split; [vm_compute; reflexivity|]).
  intros (_ & _ & Ham). specialize (Ham 11 1 eq_refl).
  vm_compute in Ham. apply elem_of_cons in Ham as [Ham|Ham]; [lia|].
  by apply elem_of_nil in Ham.
Qed.

(** ** DeletePeer *)

(** The loop of [DeletePeer] leaves the array alone from a slot on when no
    later slot holds the identity. *)
Lemma DeletePeer_range_nomatch (h : Heap) (peerID : string) (k idx : nat)
    (arr : list ptr) (m : nat) :
  idx + k = length arr →
  Forall (λ q, ID h q ≠ peerID) (drop idx arr) →
  DeletePeer_range h peerID k idx arr m = Ok (arr, m).
Proof.
  revert idx. induction k as [|k IH]; intros idx Hlen Hall; [done|].
  destruct (lookup_lt_is_Some_2 arr idx) as [p Hp]; [lia|].
  cbn [DeletePeer_range]. rewrite Hp.
  rewrite (drop_S _ _ _ Hp) in Hall. inversion Hall; subst.
  rewrite decide_False by done. apply IH; [lia|done].
Qed.

(** The slots before the first one that holds the identity are skipped. *)
Lemma DeletePeer_range_skip (h : Heap) (peerID : string) (l1 rest : list ptr)
    (d idx k m : nat) :
  Forall (λ q, ID h q ≠ peerID) l1 →
  idx + d = length l1 →
  idx + k = length (l1 ++ rest) →
  DeletePeer_range h peerID k idx (l1 ++ rest) m =
  DeletePeer_range h peerID (k - d) (idx + d) (l1 ++ rest) m.
Proof.
  intros Hl1. revert idx k. induction d as [|d IH]; intros idx k Hd Hk.
  - by rewrite Nat.sub_0_r, Nat.add_0_r.
  - rewrite length_app in Hk. destruct k as [|k]; [lia|].
    destruct (lookup_lt_is_Some_2 l1 idx) as [q Hq]; [lia|].
    cbn [DeletePeer_range]. rewrite (lookup_app_l_Some _ _ _ _ Hq).
    rewrite decide_False.
    + rewrite (IH (S idx) k); [|lia|rewrite length_app; lia].
      by replace (S idx + d) with (idx + S d) by lia.
    + eapply (proj1 (Forall_forall _ _) Hl1). by eapply list_elem_of_lookup_2.
Qed.

(** With the identity in exactly one slot, the loop returns and the slice
    it leaves is the sequence without that slot. *)
Lemma DeletePeer_range_one (h : Heap) (peerID : string) (l1 l2 : list ptr)
    (p : ptr) :
  ID h p = peerID →
  Forall (λ q, ID h q ≠ peerID) l1 →
  Forall (λ q, ID h q ≠ peerID) l2 →
  ∃ arr' m',
    DeletePeer_range h peerID (length (l1 ++ p :: l2)) 0 (l1 ++ p :: l2)
                     (length (l1 ++ p :: l2)) = Ok (arr', m') ∧
    take m' arr' = l1 ++ l2.
Proof.
  intros Hp Hl1 Hl2.
  rewrite (DeletePeer_range_skip h peerID l1 (p :: l2) (length l1) 0
             _ _ Hl1) by lia.
  rewrite length_app. cbn [length Nat.add].
  replace (length l1 + S (length l2) - length l1) with (S (length l2)) by lia.
  cbn [DeletePeer_range].
  rewrite list_lookup_middle by done.
  rewrite decide_True by done. rewrite decide_True by lia.
  rewrite take_app_length, (drop_app_add l1 (p :: l2) 1).
  cbn [drop].
  replace (length l1 + S (length l2) - (length l1 + 1)) with (length l2)
    by lia.
  rewrite firstn_all. change (drop 0 l2) with l2.
  replace (length l1 + S (length l2) - 1) with (length l1 + length l2) by lia.
  rewrite (drop_app_add l1 (p :: l2) (length l2)).
  rewrite DeletePeer_range_nomatch.
  - eexists _, _. split; [done|].
    rewrite app_assoc.
    replace (length l1 + length l2) with (length (l1 ++ l2))
      by (by rewrite length_app).
    apply take_app_length.
  - rewrite !length_app, !length_drop. cbn [length]. lia.
  - change (drop 0 l2) with l2.
    replace (S (length l1)) with (length l1 + 1) by lia.
    rewrite (drop_app_add l1 _ 1).
    destruct l2 as [|x l2]; [done|].
    cbn [app drop length]. apply Forall_app. inversion Hl2; subst.
    split; [done|]. by apply Forall_drop, Forall_cons.
Qed.

(** When two slots hold the identity the loop runs out of the slice.  After
    [AddPeer(1)], [AddPeer(2)], [PurgeOldestPeer()] the sequence is [[2]] and
    "B" is no key of the identity map, so [AddPeer(5)] appends a second peer
    with the identity "B"; [DeletePeer("B")] then removes slot 0, finds the
    identity again in slot 1 of the array it ranges over, and evaluates
    [pt.peers[2:]] on a slice of length 1. *)
Example DeletePeer_two_slots_panics :
  run [OpAddPeer 1; OpAddPeer 2; OpPurgeOldestPeer; OpAddPeer 5;
       OpDeletePeer "B"] Fixtures.world0
  = Panic "slice bounds out of range".
Proof. reflexivity. Qed.

(** Deleting from a well-formed registry returns and leaves a well-formed
    registry. *)
Lemma DeletePeer_wf (peerID : string) (w : World) :
  wf w → ∃ w', DeletePeer peerID w = Ok w' ∧ wf w'.
Proof.
  intros (Hc & Hkey & Hakey & Hnd). unfold DeletePeer.
  destruct (peerMap (table w) !! peerID) as [peer|] eqn:Hlk;
    [|by exists w].
  destruct Hc as (Hseq & Hpm & Ham).
  pose proof (Hpm _ _ Hlk) as Hin. pose proof (Hkey _ _ Hlk) as Hid.
  apply list_elem_of_split in Hin as (l1 & l2 & El).
  rewrite El in Hnd. apply NoDup_app in Hnd as (Hnd1 & Hsep & Hnd2).
  apply NoDup_cons in Hnd2 as [Hnotin2 Hnd2].
  assert (∀ q, q ∈ peers (table w) → q ≠ peer → ID (heap w) q ≠ peerID)
    as Hother.
  { intros q Hq Hne E. destruct (Hseq q Hq) as [Hq1 _].
    unfold inPeerMap in Hq1. rewrite E, Hlk in Hq1. congruence. }
  assert (Forall (λ q, ID (heap w) q ≠ peerID) l1) as Hl1.
  { apply Forall_forall. intros q Hq. apply Hother.
    - rewrite El. apply elem_of_app. by left.
    - intros ->. apply (Hsep peer Hq). by left. }
  assert (Forall (λ q, ID (heap w) q ≠ peerID) l2) as Hl2.
  { apply Forall_forall. intros q Hq. apply Hother.
    - rewrite El. apply elem_of_app. right. by right.
    - by intros ->. }
  destruct (DeletePeer_range_one (heap w) peerID l1 l2 peer Hid Hl1 Hl2)
    as (arr' & m' & Hrun & Htake).
  rewrite El, Hrun. cbn [bindR]. rewrite Htake.
  eexists. split; [done|].
  assert (∀ q, q ∈ l1 ++ l2 → q ∈ peers (table w) ∧ q ≠ peer) as Hsub.
  { intros q Hq. rewrite El. apply elem_of_app in Hq as [Hq|Hq].
    - split; [apply elem_of_app; by left|].
      intros ->. apply (Hsep peer Hq). by left.
    - split; [apply elem_of_app; right; by right|]. by intros ->. }
  destruct (Hseq peer) as [_ Hpa];
    [rewrite El; apply elem_of_app; right; by left|].
  unfold wf, consistent, inPeerMap, inAddrMap in *.
  cbn [heap table peerMap peers addrMap].
  split; [split; [|split]|split; [|split]].
  - intros q Hq. destruct (Hsub q Hq) as [Hq1 Hq2].
    destruct (Hseq q Hq1) as [Hqm Hqa]. split.
    + rewrite lookup_delete_ne; [done|]. intros E. by apply (Hother q).
    + rewrite lookup_delete_ne; [done|]. intros E.
      rewrite <- E, Hpa in Hqa. congruence.
  - intros k q Hk. apply lookup_delete_Some in Hk as [Hne Hk].
    pose proof (Hpm _ _ Hk) as Hq. rewrite El in Hq.
    apply elem_of_app in Hq as [Hq|Hq]; [apply elem_of_app; by left|].
    apply elem_of_cons in Hq as [->|Hq]; [|apply elem_of_app; by right].
    rewrite (Hkey _ _ Hk) in Hid. congruence.
  - intros a q Ha. apply lookup_delete_Some in Ha as [Hne Ha].
    pose proof (Ham _ _ Ha) as Hq. rewrite El in Hq.
    apply elem_of_app in Hq as [Hq|Hq]; [apply elem_of_app; by left|].
    apply elem_of_cons in Hq as [->|Hq]; [|apply elem_of_app; by right].
    by rewrite (Hakey _ _ Ha) in Hne.
  - intros k q Hk. apply lookup_delete_Some in Hk as [_ Hk]. by apply Hkey.
  - intros a q Ha. apply lookup_delete_Some in Ha as [_ Ha]. by apply Hakey.
  - apply NoDup_app. split; [done|]. split; [|done].
    intros q Hq1 Hq2. apply (Hsep q Hq1). by right.
Qed.

(** Adding a peer that is new to a well-formed registry leaves a
    well-formed registry. *)
Lemma AddPeer_fresh_wf (peer : ptr) (w : World) :
  wf w → fresh peer w → wf (AddPeer peer w).2.
Proof.
  intros ((Hseq & Hpm & Ham) & Hkey & Hakey & Hnd) [Hf1 Hf2].
  unfold AddPeer. rewrite Hf1.
  unfold wf, consistent, inPeerMap, inAddrMap in *.
  cbn [snd heap table peerMap peers addrMap set_peers].
  assert (peer ∉ peers (table w)) as Hnotin.
  { intros Hin. destruct (Hseq _ Hin) as [E _]. congruence. }
  split; [split; [|split]|split; [|split]].
  - intros q Hq. apply elem_of_app in Hq as [Hq|Hq].
    + destruct (Hseq q Hq) as [Hqm Hqa]. split.
      * rewrite lookup_insert_ne; [done|]. intros E. rewrite <- E in Hqm.
        congruence.
      * rewrite lookup_insert_ne; [done|]. intros E. rewrite <- E in Hqa.
        congruence.
    + apply list_elem_of_singleton in Hq as ->.
      by rewrite !lookup_insert_eq.
  - intros k q Hk. apply elem_of_app.
    apply lookup_insert_Some in Hk as [[_ <-]|[_ Hk]].
    + right. apply list_elem_of_here.
    + left. by eapply Hpm.
  - intros a q Ha. apply elem_of_app.
    apply lookup_insert_Some in Ha as [[_ <-]|[_ Ha]].
    + right. apply list_elem_of_here.
    + left. by eapply Ham.
  - intros k q Hk. apply lookup_insert_Some in Hk as [[<- <-]|[_ Hk]];
      [done|by apply Hkey].
  - intros a q Ha. apply lookup_insert_Some in Ha as [[<- <-]|[_ Ha]];
      [done|by apply Hakey].
  - apply NoDup_app. split; [done|]. split; [|apply NoDup_singleton].
    intros q Hq Hq'. apply list_elem_of_singleton in Hq' as ->. done.
Qed.

Lemma CreatePeerTable_wf (h : Heap) : wf (mkWorld h CreatePeerTable).
Proof.
  unfold wf, consistent; cbn.
  split; [split; [|split]|split; [|split]];
    try (intros ? ? H; by rewrite lookup_empty in H).
  - intros p H. by apply elem_of_nil in H.
  - apply NoDup_nil_2.
Qed.

(** Without [PurgeOldestPeer] and without re-adding an identity or an
    address that is still registered, every sequence of operations runs to
    its end and the three views stay consistent. *)
Lemma run_wf (ops : list Op) (w : World) :
  wf w → addsFreshOrDeletes ops w → ∃ w', run ops w = Ok w' ∧ wf w'.
Proof.
  revert w. induction ops as [|o ops IH]; intros w Hwf Hops.
  - by exists w.
  - destruct o as [peer|peerID|]; cbn [run step addsFreshOrDeletes bindR] in *.
    + destruct Hops as [Hfresh Hops].
      apply IH; [by apply AddPeer_fresh_wf|done].
    + destruct (DeletePeer_wf peerID w Hwf) as (w1 & Hrun & Hwf1).
      rewrite Hrun. cbn [bindR]. apply IH; [done|by apply Hops].
    + done.
Qed.

(** ** AddPeer *)

Lemma heap_after_replace (h : Heap) (peer old : ptr) :
  let h1 := Stop old h in
  let h2 := if IsOutbound h1 old then SetSeed peer (IsSeed h1 old) h1
            else h1 in
  running (h2 old) = false ∧
  IsSeed h2 peer = (if IsOutbound h old then IsSeed h old else IsSeed h peer) ∧
  ID h2 peer = ID h peer ∧
  NetAddress h2 peer = NetAddress h peer.
Proof.
  intros h1 h2. subst h1 h2.
  cbv [Stop SetSeed IsOutbound IsSeed ID NetAddress upd].
  repeat (case_decide; subst; cbn); try congruence;
    destruct (isOutbound (h old)) eqn:Eo; cbn;
    repeat (case_decide; subst; cbn); rewrite ?Eo; try done; congruence.
Qed.

(** X21.  When the identity of [peer] is in the identity
    map and [old] is the first peer of the sequence that carries it (slot
    [i]), [AddPeer(peer)] stops [old], gives [peer] the seed flag of [old]
    exactly when [old] is outbound, puts [peer] in slot [i] (the length of
    the sequence is unchanged) and returns true.  When the identity is not
    in the identity map, [AddPeer] appends [peer] to the sequence, touches no
    peer object, and returns true. *)
Theorem AddPeer_spec (w : World) (peer : ptr) :
  (∀ i old,
     is_Some (peerMap (table w) !! ID (heap w) peer) →
     peers (table w) !! i = Some old →
     ID (heap w) old = ID (heap w) peer →
     (∀ j q, j < i → peers (table w) !! j = Some q →
             ID (heap w) q ≠ ID (heap w) peer) →
     replaces w peer old i (AddPeer peer w)) ∧
  (peerMap (table w) !! ID (heap w) peer = None →
   AddPeer peer w =
     (true,
      mkWorld (heap w)
        (mkTable (<[ID (heap w) peer := peer]> (peerMap (table w)))
                 (peers (table w) ++ [peer])
                 (<[NetAddress (heap w) peer := peer]>
                    (addrMap (table w)))))).
Proof.
  split.
  - intros i old [x Hx] Hi Hid Hfirst. unfold replaces, AddPeer.
    rewrite Hx, (AddPeer_range_first peer old w _ 0 i Hi Hid Hfirst).
    destruct (heap_after_replace (heap w) peer old) as (Hrun & Hseed & Hpid & Haddr).
    cbn [fst snd heap table peers peerMap addrMap set_peers Nat.add].
    rewrite Hpid, Haddr. repeat split; try done.
    by rewrite length_insert.
  - intros Hnone. unfold AddPeer. by rewrite Hnone.
Qed.

(** On the registry [[1; 2]]: peer 3 carries the identity of peer 1 and
    replaces it in slot 0; peer 4 carries a new identity and is appended. *)
Lemma AddPeer_spec_witness :
  replaces Fixtures.world12 3 1 0 (AddPeer 3 Fixtures.world12) ∧
  AddPeer 4 Fixtures.world12 =
    (true,
     mkWorld Fixtures.heap0
       (mkTable (<["C"%string := 4]> (peerMap (table Fixtures.world12)))
                [1; 2; 4]
                (<[14 := 4]> (addrMap (table Fixtures.world12))))).
Proof.
  split.
  - apply (AddPeer_spec Fixtures.world12 3).
    + exists 1. vm_compute. reflexivity.
    + reflexivity.
    + reflexivity.
    + intros j q Hj. lia.
  - apply (AddPeer_spec Fixtures.world12 4). vm_compute. reflexivity.
Defined.

(** C2.  [AddPeer] on an identity that the identity map holds and no slot
    of the sequence carries, a registry the operations reach.  After
    [AddPeer(1)],
    [AddPeer(2)], [PurgeOldestPeer()] the identity map sends "A" to peer 1,
    an outbound seed that is running, and the sequence is [[2]].
    [AddPeer(3)] with the identity "A" finds the identity in the map and no
    slot in the sequence: it returns true, peer 1 is still running, peer 3
    has not inherited the seed flag, both maps send to peer 3 and the
    sequence, still [[2]], does not hold it; so peer 3 has replaced peer 1
    in no slot. *)
Lemma AddPeer_identity_without_slot :
  run [OpAddPeer 1; OpAddPeer 2; OpPurgeOldestPeer] Fixtures.world0
    = Ok Fixtures.worldPurged ∧
  peerMap (table Fixtures.worldPurged) !! ID Fixtures.heap0 3 = Some 1 ∧
  IsOutbound Fixtures.heap0 1 = true ∧
  IsSeed Fixtures.heap0 1 = true ∧
  running (Fixtures.heap0 1) = true ∧
  (AddPeer 3 Fixtures.worldPurged).1 = true ∧
  running (heap (AddPeer 3 Fixtures.worldPurged).2 1) = true ∧
  IsSeed (heap (AddPeer 3 Fixtures.worldPurged).2) 3 = false ∧
  GetPeer "A" (AddPeer 3 Fixtures.worldPurged).2 = Some 3 ∧
  GetPeerWithAddr 13 (AddPeer 3 Fixtures.worldPurged).2 = Some 3 ∧
  peers (table (AddPeer 3 Fixtures.worldPurged).2) = [2] ∧
  ¬ ∃ i, replaces Fixtures.worldPurged 3 1 i (AddPeer 3 Fixtures.worldPurged).
Proof.
  repeat (split; [vm_compute; reflexivity|]).
  intros (i & _ & Hrun & _). vm_compute in Hrun. congruence.
Qed.

(** ** GetSelection *)

Lemma numPeersOf_range (n : Z) :
  (0 < n)%Z → (1 <= numPeersOf n <= 250 ∧ numPeersOf n <= n)%Z.
Proof.
  intros Hn. unfold numPeersOf, MaxInt, MinInt, minGetSelection,
    maxGetSelection, getSelectionPercent.
  destruct (Z_lt_le_dec n 250) as [Hsmall|Hbig].
  - assert (wrap64 (n * 23) = n * 23)%Z as ->.
    { unfold wrap64. rewrite Z.mod_small; lia. }
    assert (0 <= n * 23 ÷ 100 <= n)%Z.
    { rewrite Z.quot_div_nonneg by lia. split.
      - apply Z.div_pos; lia.
      - apply Z.div_le_upper_bound; lia. }
    repeat case_match; lia.
  - repeat case_match; lia.
Qed.

(** Without wrap-around of [len(peers) * 23] the selection size is the
    clamp of the spec. *)
Lemma numPeersOf_formula (n : Z) :
  (0 <= n)%Z → (n * 23 < 2 ^ 63)%Z →
  numPeersOf n = Z.min 250 (Z.max (Z.min 32 n) (n * 23 / 100)).
Proof.
  intros Hn Hov. unfold numPeersOf, MaxInt, MinInt, minGetSelection,
    maxGetSelection, getSelectionPercent.
  assert (wrap64 (n * 23) = n * 23)%Z as ->.
  { unfold wrap64. rewrite Z.mod_small; lia. }
  rewrite Z.quot_div_nonneg by lia.
  repeat case_match; lia.
Qed.

Lemma swap_ok {A} (i j : nat) (l : list A) :
  i < length l → j < length l →
  ∃ l', swap i j l = Ok l' ∧ l' ≡ₚ l ∧ length l' = length l.
Proof.
  intros Hi Hj. unfold swap.
  destruct (lookup_lt_is_Some_2 l i Hi) as [x Hx].
  destruct (lookup_lt_is_Some_2 l j Hj) as [y Hy].
  rewrite Hx, Hy. eexists; split; [done|]. split.
  - by apply Permutation_insert_swap.
  - by rewrite !length_insert.
Qed.

Lemma swap_fmap {A B} (g : A → B) (i j : nat) (l : list A) :
  swap i j (g <$> l) =
  match swap i j l with Ok l' => Ok (g <$> l') | Panic s => Panic s end.
Proof.
  unfold swap. rewrite !list_lookup_fmap.
  destruct (l !! j), (l !! i); simpl; try done.
  by rewrite !list_fmap_insert.
Qed.

Section Selection.

(** The draws of [rand.Intn], one per iteration of the shuffle. *)
Variable rnd : nat → nat.

(** The loop never leaves the array: with [i + k] at most the length, every
    draw is taken from a positive bound and both swapped slots exist. *)
Lemma shuffle_ok {A} (k i : nat) (l : list A) :
  i + k <= length l →
  ∃ l', shuffle rnd k i l = Ok l' ∧ l' ≡ₚ l ∧ length l' = length l.
Proof.
  revert i l. induction k as [|k IH]; intros i l Hk; simpl.
  - by exists l.
  - unfold Intn. rewrite decide_False by lia. simpl.
    assert (rnd i `mod` Z.to_nat (Z.of_nat (length l) - Z.of_nat i)
            < length l - i) as Hr.
    { replace (Z.to_nat (Z.of_nat (length l) - Z.of_nat i))
        with (length l - i) by lia.
      apply Nat.mod_upper_bound. lia. }
    destruct (swap_ok i
      (rnd i `mod` Z.to_nat (Z.of_nat (length l) - Z.of_nat i) + i) l)
      as (l1 & -> & Hp1 & Hl1); [lia|lia|]. simpl.
    destruct (IH (S i) l1) as (l2 & -> & Hp2 & Hl2); [lia|].
    exists l2. split; [done|]. split; [by rewrite Hp2|lia].
Qed.

Lemma shuffle_fmap {A B} (g : A → B) (k i : nat)
    (l : list A) :
  shuffle rnd k i (g <$> l) =
  match shuffle rnd k i l with Ok l' => Ok (g <$> l') | Panic s => Panic s end.
Proof.
  revert i l. induction k as [|k IH]; intros i l; simpl; [done|].
  rewrite length_fmap. destruct (Intn _ _) as [r|]; simpl; [|done].
  rewrite swap_fmap. destruct (swap _ _ l) as [l1|]; simpl; [|done].
  apply IH.
Qed.

Lemma list_as_fmap_seq (l : list ptr) :
  l = (λ i, default 0 (l !! i)) <$> seq 0 (length l).
Proof.
  apply list_eq; intros i. rewrite list_lookup_fmap.
  destruct (decide (i < length l)) as [Hi|Hi].
  - rewrite lookup_seq_lt by done. cbn.
    destruct (lookup_lt_is_Some_2 l i Hi) as [x Hx]. by rewrite !Hx.
  - rewrite (lookup_ge_None_2 l) by lia.
    by rewrite (lookup_ge_None_2 (seq _ _)) by (rewrite length_seq; lia).
Qed.

(** A run of [GetSelection] on a non-empty registry: the shuffled copy is
    the registry's sequence read through a permutation [perm] of its slot
    numbers, and the result is made from the first [numPeers] of them. *)
Lemma GetSelection_run (w : World) :
  peers (table w) ≠ [] →
  let l := peers (table w) in
  let numPeers := numPeersOf (Z.of_nat (length l)) in
  ∃ perm,
    perm ≡ₚ seq 0 (length l) ∧
    GetSelection rnd w =
      Ok (idAddr (heap w) <$>
            ((λ i, default 0 (l !! i)) <$> take (Z.to_nat numPeers) perm),
          w).
Proof.
  intros Hne. cbv zeta. unfold GetSelection.
  destruct (peers (table w)) as [|p0 l0] eqn:El; [done|]. lazy iota beta zeta.
  assert (0 < Z.of_nat (length (p0 :: l0)))%Z as Hpos by (simpl; lia).
  set (l := p0 :: l0) in *. clearbody l.
  destruct (numPeersOf_range _ Hpos) as [[Hlo Hhi] Hle].
  set (numPeers := numPeersOf (Z.of_nat (length l))) in *.
  destruct (shuffle_ok (Z.to_nat numPeers) 0 (seq 0 (length l)))
    as (perm & Hsh & Hperm & Hlen); [rewrite length_seq; lia|].
  exists perm. split; [done|].
  rewrite (list_as_fmap_seq l) at 1. rewrite shuffle_fmap, Hsh. cbn [bindR].
  unfold slice_to. rewrite length_fmap, Hlen, length_seq.
  rewrite decide_True by lia. cbn [bindR]. by rewrite !fmap_take.
Qed.

(** C10.  On a non-empty registry of [n] peers the selection size lies in
    [[0, n]], [GetSelection] returns without a panic (every [rand.Intn]
    bound is positive, both slots of every swap and the final slice are in
    range), the pairs it returns are read from pairwise distinct slots of
    the registry's sequence, the [ID] field of each pair is the identity and
    its [Addr] field the address of the peer in its slot, and the world the
    call leaves has the sequence, both maps and every peer object as they
    were. *)
Theorem GetSelection_in_bounds (w : World) :
  peers (table w) ≠ [] →
  let l := peers (table w) in
  let numPeers := numPeersOf (Z.of_nat (length l)) in
  (0 <= numPeers <= Z.of_nat (length l))%Z ∧
  ∃ (idxs : list nat) (sel : list PeerIDAddress) (w' : World),
    GetSelection rnd w = Ok (sel, w') ∧
    peers (table w') = l ∧
    peerMap (table w') = peerMap (table w) ∧
    addrMap (table w') = addrMap (table w) ∧
    heap w' = heap w ∧
    length sel = Z.to_nat numPeers ∧
    NoDup idxs ∧
    Forall2 (λ i pr, ∃ p, l !! i = Some p ∧ p ∈ l ∧
                          pia_ID pr = peer_id (heap w p) ∧
                          pia_Addr pr = netAddress (heap w p))
            idxs sel.
Proof.
  intros Hne l numPeers.
  assert (0 < Z.of_nat (length l))%Z as Hpos.
  { subst l. destruct (peers (table w)); [done|simpl; lia]. }
  destruct (numPeersOf_range _ Hpos) as [[Hlo Hhi] Hle].
  fold numPeers in Hlo, Hhi, Hle.
  split; [lia|].
  destruct (GetSelection_run w Hne) as (perm & Hperm & Hrun).
  fold l in Hperm, Hrun. fold numPeers in Hrun.
  exists (take (Z.to_nat numPeers) perm). eexists. exists w.
  split; [exact Hrun|]. do 4 (split; [done|]).
  assert (length perm = length l) as Hlen
    by (by rewrite Hperm, length_seq).
  split; [|split].
  - rewrite !length_fmap, length_take. lia.
  - assert (NoDup perm) as Hnd by (rewrite Hperm; apply NoDup_seq).
    exact (sublist_NoDup _ _ Hnd (sublist_take _ _)).
  - rewrite <- list_fmap_compose. apply Forall2_fmap_r.
    apply Forall2_same_length_lookup. split; [done|].
    intros k i i' Hi Hi'. rewrite Hi in Hi'. injection Hi' as <-.
    apply lookup_take_Some in Hi as [Hi _].
    apply list_elem_of_lookup_2 in Hi as Hi'.
    rewrite Hperm in Hi'. apply elem_of_seq in Hi' as [_ Hi'].
    destruct (lookup_lt_is_Some_2 l i) as [p Hp]; [lia|].
    exists p. simpl. rewrite Hp. simpl.
    split; [done|]. split; [|done]. by eapply list_elem_of_lookup_2.
Qed.

(** C4.  As long as [len(peers) * 23] does not leave the range of [int]
    (which holds for every slice a 64-bit machine can hold),
    [GetSelection] returns, without a panic and leaving the registry as it
    was, exactly min(250, max(min(32, n), floor(n * 23 / 100))) pairs on a
    registry of [n > 0] peers, and nil on the empty registry. *)
Theorem GetSelection_size (w : World) :
  let n := Z.of_nat (length (peers (table w))) in
  (n * 23 < 2 ^ 63)%Z →
  ∃ sel,
    GetSelection rnd w = Ok (sel, w) ∧
    ((0 < n)%Z →
     Z.of_nat (length sel) = Z.min 250 (Z.max (Z.min 32 n) (n * 23 / 100))) ∧
    (n = 0%Z → sel = []).
Proof.
  intros n Hov. destruct (peers (table w)) as [|p0 l0] eqn:El.
  - exists []. unfold GetSelection. rewrite El. split; [done|].
    split; [|done]. subst n; simpl; lia.
  - assert (peers (table w) ≠ []) as Hne by (by rewrite El).
    destruct (GetSelection_run w Hne) as (perm & Hperm & Hrun).
    rewrite El in Hperm, Hrun. fold n in Hrun.
    assert (0 < n)%Z as Hpos by (subst n; simpl; lia).
    destruct (numPeersOf_range n Hpos) as [[Hlo Hhi] Hle].
    eexists. split; [exact Hrun|]. split.
    + intros _. rewrite !length_fmap, length_take, Hperm, length_seq.
      rewrite <- (numPeersOf_formula n) by lia. subst n. lia.
    + subst n; simpl; lia.
Qed.

End Selection.

(** On a registry of twelve peers, [GetSelection] returns all twelve. *)
Lemma GetSelection_in_bounds_witness :
  let w := Fixtures.registry 12 in
  let l := peers (table w) in
  peers (table w) ≠ [] ∧
  (0 <= 12 <= Z.of_nat (length l))%Z ∧
  ∃ (idxs : list nat) (sel : list PeerIDAddress) (w' : World),
    GetSelection Fixtures.draws w = Ok (sel, w') ∧
    peers (table w') = l ∧
    peerMap (table w') = peerMap (table w) ∧
    addrMap (table w') = addrMap (table w) ∧
    heap w' = heap w ∧
    length sel = 12 ∧
    NoDup idxs ∧
    Forall2 (λ i pr, ∃ p, l !! i = Some p ∧ p ∈ l ∧
                          pia_ID pr = peer_id (heap w p) ∧
                          pia_Addr pr = netAddress (heap w p))
            idxs sel.
Proof.
  assert (peers (table (Fixtures.registry 12)) ≠ []) as Hne
    by (vm_compute; congruence).
  split; [exact Hne|].
  exact (GetSelection_in_bounds Fixtures.draws (Fixtures.registry 12) Hne).
Defined.

(** A registry of 1000 peers yields 230 pairs (between 230 and 250), one of
    10 peers yields all 10, and the empty registry yields nil. *)
Lemma GetSelection_size_witness :
  (∃ sel, GetSelection Fixtures.draws (Fixtures.registry 1000)
            = Ok (sel, Fixtures.registry 1000) ∧
          length sel = 230) ∧
  (∃ sel, GetSelection Fixtures.draws (Fixtures.registry 10)
            = Ok (sel, Fixtures.registry 10) ∧
          length sel = 10) ∧
  GetSelection Fixtures.draws (Fixtures.registry 0)
    = Ok ([], Fixtures.registry 0).
Proof.
  assert (∀ k, length (peers (table (Fixtures.registry k))) = k
               → (Z.of_nat k * 23 < 2 ^ 63)%Z
               → (Z.of_nat (length (peers (table (Fixtures.registry k)))) * 23
                  < 2 ^ 63)%Z) as Hov.
  { by intros k ->. }
  split; [|split].
  - destruct (GetSelection_size Fixtures.draws (Fixtures.registry 1000))
      as (sel & Hrun & Hlen & _).
    { apply Hov; [by vm_compute|lia]. }
    exists sel. split; [exact Hrun|].
    assert (length (peers (table (Fixtures.registry 1000))) = 1000) as E
      by (by vm_compute).
    rewrite E in Hlen. apply Nat2Z.inj. rewrite Hlen by lia. by vm_compute.
  - destruct (GetSelection_size Fixtures.draws (Fixtures.registry 10))
      as (sel & Hrun & Hlen & _).
    { apply Hov; [by vm_compute|lia]. }
    exists sel. split; [exact Hrun|].
    assert (length (peers (table (Fixtures.registry 10))) = 10) as E
      by (by vm_compute).
    rewrite E in Hlen. apply Nat2Z.inj. rewrite Hlen by lia. by vm_compute.
  - destruct (GetSelection_size Fixtures.draws (Fixtures.registry 0))
      as (sel & Hrun & _ & Hnil).
    { apply Hov; [by vm_compute|lia]. }
    rewrite Hrun, Hnil; [done|]. by vm_compute.
Defined.

(** * Properties of the sync manager *)

Import NetSync.

(** ** Hexadecimal strings *)

Lemma hex_byte_roundtrip (b : Byte.byte) :
  fromHexChar (hexDigit (Byte.to_N b / 16)) = Some (Byte.to_N b / 16)%N ∧
  fromHexChar (hexDigit (Byte.to_N b `mod` 16)) = Some (Byte.to_N b `mod` 16)%N ∧
  byte_of_ascii
    (ascii_of_N (Byte.to_N b / 16 * 16 + Byte.to_N b `mod` 16)) = b.
Proof. destruct b; vm_compute; done. Qed.

(** Decoding what [EncodeToString] wrote gives the bytes back. *)
Lemma DecodeString_EncodeToString (bs : Bytes) :
  DecodeString (EncodeToString bs) = Some bs.
Proof.
  induction bs as [|b bs IH]; [done|].
  destruct (hex_byte_roundtrip b) as (Hhi & Hlo & Hb).
  cbn [EncodeToString DecodeString]. by rewrite Hhi, Hlo, IH, Hb.
Qed.

(** ** Data requests *)

Section DataRequests.

Context (m : SyncManager) (peerID : string).

Lemma handleDataRequest_range_served (pre rest : list string) :
  Forall (λ h, is_Some (serve m h)) pre →
  handleDataRequest_range m peerID (pre ++ rest) =
  (pre ≫= λ h, from_option (serveTrace peerID) [] (serve m h))
  ++ handleDataRequest_range m peerID rest.
Proof.
  induction 1 as [|h pre [r Hr] _ IH]; [done|].
  cbn [app handleDataRequest_range mbind list_bind]. rewrite IH.
  unfold serve in Hr |- *.
  destruct (DecodeString h) as [hash|]; [|done].
  destruct (FindBlock m hash) as [block|]; [|done].
  by destruct (EncodeToBytes m (eb_Block block)).
Qed.

Lemma handleDataRequest_range_stop (bad : string) (post : list string) :
  serve m bad = None →
  ∃ msg, handleDataRequest_range m peerID (bad :: post) = [Log Error msg].
Proof.
  intros Hbad. unfold serve in Hbad. cbn [handleDataRequest_range].
  destruct (DecodeString bad) as [hash|]; [|by eexists].
  destruct (FindBlock m hash) as [block|]; [|by eexists].
  destruct (EncodeToBytes m (eb_Block block)); [done|by eexists].
Qed.

Lemma sentData_app (tr1 tr2 : Trace) :
  sentData (tr1 ++ tr2) = sentData tr1 ++ sentData tr2.
Proof. apply omap_app. Qed.

Lemma sentData_served (l : list string) :
  sentData (l ≫= λ h, from_option (serveTrace peerID) [] (serve m h))
  = omap (serve m) l.
Proof.
  induction l as [|h l IH]; [done|].
  cbn [mbind list_bind omap list_omap].
  rewrite sentData_app, IH. by destruct (serve m h).
Qed.

(** C5, as the code has it.  On the block channel a hash that fails to
    decode, is not found locally, or fails to encode ends the handling of
    the whole request: every hash before it has been served with its own
    data response, one error is logged, and neither the failing hash nor any
    hash after it gets a response.  When no hash fails, every hash of the
    request is served, in order. *)
Theorem handleDataRequest_stops_at_first_failure :
  (∀ pre bad post,
     Forall (λ h, is_Some (serve m h)) pre →
     serve m bad = None →
     let tr := handleDataRequest m peerID
                 (mkDataRequest ChannelIDBlock (pre ++ bad :: post)) in
     (∃ msg, tr = (pre ≫= λ h, from_option (serveTrace peerID) [] (serve m h))
                  ++ [Log Error msg]) ∧
     sentData tr = omap (serve m) pre ∧
     length (sentData tr) = length pre) ∧
  (∀ entries,
     Forall (λ h, is_Some (serve m h)) entries →
     let tr := handleDataRequest m peerID
                 (mkDataRequest ChannelIDBlock entries) in
     tr = (entries ≫= λ h, from_option (serveTrace peerID) [] (serve m h)) ∧
     sentData tr = omap (serve m) entries ∧
     length (sentData tr) = length entries).
Proof.
  assert (∀ l, Forall (λ h, is_Some (serve m h)) l →
               length (omap (serve m) l) = length l) as Hlen.
  { induction 1 as [|h l [r Hr] _ IH]; [done|].
    cbn [omap list_omap]. rewrite Hr. simpl. by rewrite <- IH. }
  split.
  - intros pre bad post Hpre Hbad tr. subst tr.
    unfold handleDataRequest. cbn [dreq_ChannelID dreq_Entries].
    rewrite (handleDataRequest_range_served _ _ Hpre).
    destruct (handleDataRequest_range_stop bad post Hbad)
      as [msg ->].
    split; [by exists msg|].
    rewrite sentData_app, sentData_served.
    change (sentData [Log Error msg]) with (@nil DataResponse).
    rewrite app_nil_r.
    split; [done|by apply Hlen].
  - intros entries Hall tr. subst tr.
    unfold handleDataRequest. cbn [dreq_ChannelID dreq_Entries].
    assert (handleDataRequest_range m peerID entries =
            (entries ≫= λ h, from_option (serveTrace peerID) [] (serve m h)))
      as ->.
    { rewrite <- (app_nil_r entries) at 1.
      rewrite (handleDataRequest_range_served _ _ Hall).
      cbn [handleDataRequest_range]. by rewrite app_nil_r. }
    split; [done|]. rewrite sentData_served. split; [done|by apply Hlen].
Qed.

End DataRequests.

(** A request for 0a, an undecodable entry and 0b serves 0a and stops; a
    request for 0a and 0b serves both. *)
Lemma handleDataRequest_stops_at_first_failure_witness :
  let m := ChainFixtures.chainABC 50 in
  (let tr := handleDataRequest m "peer"
               (mkDataRequest ChannelIDBlock ["0a"; "zz"; "0b"]) in
   (∃ msg, tr = serveTrace "peer" (mkDataResponse ChannelIDBlock [Byte.x0a])
                ++ [Log Error msg]) ∧
   sentData tr = [mkDataResponse ChannelIDBlock [Byte.x0a]] ∧
   length (sentData tr) = 1) ∧
  (let tr := handleDataRequest m "peer"
               (mkDataRequest ChannelIDBlock ["0a"; "0b"]) in
   tr = serveTrace "peer" (mkDataResponse ChannelIDBlock [Byte.x0a])
        ++ serveTrace "peer" (mkDataResponse ChannelIDBlock [Byte.x0b]) ∧
   sentData tr = [mkDataResponse ChannelIDBlock [Byte.x0a];
                  mkDataResponse ChannelIDBlock [Byte.x0b]] ∧
   length (sentData tr) = 2).
Proof.
  intros m. split.
  - apply (proj1 (handleDataRequest_stops_at_first_failure m "peer")
             ["0a"] "zz" ["0b"]).
    + repeat constructor. by eexists.
    + reflexivity.
  - apply (proj2 (handleDataRequest_stops_at_first_failure m "peer")
             ["0a"; "0b"]).
    repeat constructor; by eexists.
Defined.

(** C5, as stated, fails.  On the chain 0a -> 0b -> 0c the hash 0a is
    served when it is asked for alone; asked for after an undecodable entry
    ("zz"), after a hash that is not in the chain (0d), or after a block
    that cannot be encoded (0c), it gets no response: the handler has
    returned at the failing entry. *)
Lemma handleDataRequest_drops_later_hashes :
  let m := ChainFixtures.chainABC 50 in
  let ask := λ entries,
    sentData (handleDataRequest m "peer"
                (mkDataRequest ChannelIDBlock entries)) in
  serve m "0a" = Some (mkDataResponse ChannelIDBlock [Byte.x0a]) ∧
  ask ["0a"] = [mkDataResponse ChannelIDBlock [Byte.x0a]] ∧
  ask ["zz"; "0a"] = [] ∧
  ask ["0d"; "0a"] = [] ∧
  ask ["0c"; "0a"] = [] ∧
  ask ["zz"; "0a"] ≠ omap (serve m) ["zz"; "0a"] ∧
  ask ["0d"; "0a"] ≠ omap (serve m) ["0d"; "0a"] ∧
  ask ["0c"; "0a"] ≠ omap (serve m) ["0c"; "0a"].
Proof.
  intros m ask. repeat (split; [vm_compute; reflexivity|]).
  repeat split; vm_compute; congruence.
Qed.

(** ** Inventory requests *)

Lemma sentInventories_sendInventory (peerID : string) (blocks : list string) :
  sentInventories (sendInventory peerID blocks)
  = [mkInventoryResponse ChannelIDBlock blocks].
Proof. reflexivity. Qed.

(** The walk never collects more than one entry per iteration plus one for
    the end hash. *)
Lemma handleInvRequest_loop_bound (m : SyncManager) (peerID : string)
    (k : nat) (curr end_ : Bytes) (blocks : list string)
    (resp : InventoryResponse) :
  resp ∈ sentInventories (handleInvRequest_loop m peerID k curr end_ blocks) →
  length (iresp_Entries resp) <= length blocks + k + 1.
Proof.
  revert curr blocks. induction k as [|k IH]; intros curr blocks Hin.
  - cbn [handleInvRequest_loop] in Hin.
    rewrite sentInventories_sendInventory in Hin.
    apply list_elem_of_singleton in Hin as ->. simpl. lia.
  - cbn [handleInvRequest_loop] in Hin.
    destruct (FindBlock m curr) as [block|];
      [|by apply elem_of_nil in Hin].
    destruct (Children block) as [|child rest].
    + rewrite sentInventories_sendInventory in Hin.
      apply list_elem_of_singleton in Hin as ->. simpl.
      rewrite length_app. simpl. lia.
    + destruct (decide (child = end_)).
      * rewrite sentInventories_sendInventory in Hin.
        apply list_elem_of_singleton in Hin as ->. simpl.
        rewrite !length_app. simpl. lia.
      * apply IH in Hin. rewrite length_app in Hin. simpl in Hin. lia.
Qed.

Lemma handleInvRequest_bound (m : SyncManager) (peerID : string)
    (req : InventoryRequest) (resp : InventoryResponse) :
  resp ∈ sentInventories (handleInvRequest m peerID req) →
  length (iresp_Entries resp) <= MaxInventorySize m + 1.
Proof.
  unfold handleInvRequest. intros Hin.
  change (sentInventories (Log Debug "Received inventory request" :: ?t))
    with (sentInventories t) in Hin.
  destruct (ireq_ChannelID req); try by apply elem_of_nil in Hin.
  destruct (decide _); [by apply elem_of_nil in Hin|].
  destruct (DecodeString (Start req)); [|by apply elem_of_nil in Hin].
  destruct (DecodeString (End_ req)); [|by apply elem_of_nil in Hin].
  apply handleInvRequest_loop_bound in Hin. simpl in Hin. lia.
Qed.

Lemma handleInvRequest_loop_S (m : SyncManager) (peerID : string) (k : nat)
    (curr end_ : Bytes) (blocks : list string) :
  handleInvRequest_loop m peerID (S k) curr end_ blocks =
  match FindBlock m curr with
  | None => [Log Error "Failed to find block with given hash"]
  | Some block =>
      match Children block with
      | [] => sendInventory peerID (blocks ++ [EncodeToString curr])
      | child :: _ =>
          if decide (child = end_) then
            sendInventory peerID
              ((blocks ++ [EncodeToString curr]) ++ [EncodeToString end_])
          else handleInvRequest_loop m peerID k child end_
                 (blocks ++ [EncodeToString curr])
      end
  end.
Proof. reflexivity. Qed.

Lemma zeros_snoc (n : nat) :
  ChainFixtures.zeros n ++ [Byte.x00] = ChainFixtures.zeros (S n).
Proof.
  unfold ChainFixtures.zeros. induction n as [|n IH]; [done|].
  simpl. by rewrite IH.
Qed.

(** On the unbounded chain, a walk of [j + 1] iterations from the hash of
    [c] zero bytes toward the hash of [c + j + 1] zero bytes collects
    [j + 2] entries. *)
Lemma lineChain_walk (max : nat) (peerID : string) (j c : nat)
    (blocks : list string) :
  handleInvRequest_loop (ChainFixtures.lineChain max) peerID (S j)
    (ChainFixtures.zeros c) (ChainFixtures.zeros (c + S j)) blocks
  = sendInventory peerID
      (blocks ++ ((λ i, EncodeToString (ChainFixtures.zeros i))
                    <$> seq c (S (S j)))).
Proof.
  revert c blocks. induction j as [|j IH]; intros c blocks.
  - rewrite handleInvRequest_loop_S.
    cbn [ChainFixtures.lineChain FindBlock Children].
    rewrite zeros_snoc. replace (c + 1) with (S c) by lia.
    rewrite decide_True by done. cbn [seq fmap list_fmap].
    by rewrite <- app_assoc.
  - rewrite handleInvRequest_loop_S.
    cbn [ChainFixtures.lineChain FindBlock Children].
    rewrite zeros_snoc. rewrite decide_False.
    + replace (c + S (S j)) with (S c + S j) by lia.
      change (mkSyncManager _ _ _ _ _ max) with (ChainFixtures.lineChain max).
      rewrite IH. f_equal. by rewrite <- app_assoc.
    + intros E. apply (f_equal length) in E.
      unfold ChainFixtures.zeros in E. rewrite !length_replicate in E. lia.
Qed.

(** C6.  The inventory response can hold one entry more than
    [dispatcher.MaxInventorySize].  Whatever positive value [k + 1] the
    constant has, on the unbounded chain a request from the hash 00 to the
    hash of [k + 2] zero bytes reaches the end hash in the last permitted
    iteration: that iteration appends the current hash, which makes
    [k + 1] entries, and then the end hash. *)
Theorem handleInvRequest_exceeds_MaxInventorySize (k : nat) :
  let m := ChainFixtures.lineChain (S k) in
  let req := mkInventoryRequest ChannelIDBlock
               (EncodeToString (ChainFixtures.zeros 1))
               (EncodeToString (ChainFixtures.zeros (S (S k)))) in
  ∃ resp,
    sentInventories (handleInvRequest m "peer" req) = [resp] ∧
    length (iresp_Entries resp) = S (MaxInventorySize m).
Proof.
  intros m req. subst m req. unfold handleInvRequest.
  cbn [ireq_ChannelID Start End_ ChainFixtures.lineChain MaxInventorySize].
  rewrite decide_False by done.
  rewrite !DecodeString_EncodeToString.
  change (mkSyncManager _ _ _ _ _ (S k)) with (ChainFixtures.lineChain (S k)).
  replace (S (S k)) with (1 + S k) at 2 by lia.
  rewrite lineChain_walk.
  eexists. split; [reflexivity|].
  cbn [iresp_Entries]. by rewrite app_nil_l, length_fmap, length_seq.
Qed.

(** The same walk with the constant at 3: four entries are sent. *)
Example handleInvRequest_four_of_three :
  sentInventories
    (handleInvRequest (ChainFixtures.lineChain 3) "peer"
       (mkInventoryRequest ChannelIDBlock "00" "00000000"))
  = [mkInventoryResponse ChannelIDBlock
       ["00"; "0000"; "000000"; "00000000"]].
Proof. vm_compute. reflexivity. Qed.

(** C7.  A request whose start hash equals its end hash is not answered
    with that hash alone when the start block has a child: the end hash is
    only compared with the children the walk moves to, so on the chain
    0a -> 0b -> 0c the request from 0a to 0a is answered with all three
    hashes, whatever value of at least 3 the constant has. *)
Theorem handleInvRequest_start_equals_end (k : nat) :
  sentInventories
    (handleInvRequest (ChainFixtures.chainABC (3 + k)) "peer"
       (mkInventoryRequest ChannelIDBlock "0a" "0a"))
  = [mkInventoryResponse ChannelIDBlock ["0a"; "0b"; "0c"]].
Proof. reflexivity. Qed.

(** When the start block has no child the answer is the single hash. *)
Example handleInvRequest_start_equals_end_leaf (k : nat) :
  sentInventories
    (handleInvRequest (ChainFixtures.chainABC (1 + k)) "peer"
       (mkInventoryRequest ChannelIDBlock "0c" "0c"))
  = [mkInventoryResponse ChannelIDBlock ["0c"]].
Proof. reflexivity. Qed.

(** ** Votes *)

(** C8.  [handleVote] forwards the vote to the consumer whatever the vote
    refers to, exactly once and as its last call; it registers a hash with
    the request manager exactly when the vote references a block, and then
    the hash is that block's and the set of candidate peers is empty. *)
Theorem handleVote_spec (vote : Vote) :
  last (handleVote vote) = Some (AddMessage (ConsumedVote vote)) ∧
  (∀ c, AddMessage c ∈ handleVote vote ↔ c = ConsumedVote vote) ∧
  (∀ hash peerIDs,
     AddHash hash peerIDs ∈ handleVote vote ↔
     ∃ b, vote_Block vote = Some b ∧ hash = Hash b ∧ peerIDs = []) ∧
  length (handleVote vote) = (if vote_Block vote is Some _ then 2 else 1).
Proof.
  unfold handleVote. destruct (vote_Block vote) as [b|]; simpl.
  - split; [done|]. split; [|split; [|done]].
    + intros c. rewrite !elem_of_cons, elem_of_nil. split.
      * intros [?|[?|[]]]; congruence.
      * intros ->. right. by left.
    + intros hash peerIDs. rewrite !elem_of_cons, elem_of_nil. split.
      * intros [E|[?|[]]]; [|congruence]. injection E as -> ->. by exists b.
      * intros (b' & E & -> & ->). injection E as <-. by left.
  - split; [done|]. split; [|split; [|done]].
    + intros c. rewrite !elem_of_cons, elem_of_nil. split.
      * intros [?|[]]; congruence.
      * intros ->. by left.
    + intros hash peerIDs. rewrite !elem_of_cons, elem_of_nil. split.
      * intros [?|[]]; congruence.
      * by intros (b' & E & _).
Qed.

(** A data response on the vote channel that decodes reaches [handleVote]. *)
Lemma handleDataResponse_vote (m : SyncManager) (peerID : string)
    (data : DataResponse) (vote : Vote) :
  dresp_ChannelID data = ChannelIDVote →
  DecodeVote m (Payload data) = Some vote →
  handleDataResponse m peerID data = handleVote vote.
Proof. intros Hc Hd. unfold handleDataResponse. by rewrite Hc, Hd. Qed.

(** ** Dispatch *)

(** C9.  [processMessage] panics exactly on a payload that is none of the
    four shapes of its type switch; on each of the four shapes it returns,
    having run the handler of that shape. *)
Theorem processMessage_panics_on_unknown (m : SyncManager) (message : Message) :
  (recognized (msg_Content message) = false ↔
   processMessage m message = Panic "Received unknown message") ∧
  isOk (processMessage m message) = recognized (msg_Content message) ∧
  match msg_Content message with
  | ContentInventoryRequest c =>
      processMessage m message = Ok (handleInvRequest m (PeerID message) c)
  | ContentInventoryResponse c =>
      processMessage m message = Ok (handleInvResponse m (PeerID message) c)
  | ContentDataRequest c =>
      processMessage m message = Ok (handleDataRequest m (PeerID message) c)
  | ContentDataResponse c =>
      processMessage m message = Ok (handleDataResponse m (PeerID message) c)
  | ContentOther _ => True
  end.
Proof.
  unfold processMessage. destruct (msg_Content message); simpl;
    (split; [split; [done|congruence || done]|done]).
Qed.

(** * Further properties of the peer registry *)

Import Observations.

(** ** Insertion and lookup *)

Lemma Stop_frame (p q : ptr) (h : Heap) :
  peer_id (Stop p h q) = peer_id (h q) ∧
  netAddress (Stop p h q) = netAddress (h q) ∧
  isOutbound (Stop p h q) = isOutbound (h q) ∧
  isSeed (Stop p h q) = isSeed (h q).
Proof. unfold Stop, upd. case_decide; subst; done. Qed.

Lemma SetSeed_frame (p q : ptr) (b : bool) (h : Heap) :
  peer_id (SetSeed p b h q) = peer_id (h q) ∧
  netAddress (SetSeed p b h q) = netAddress (h q) ∧
  isOutbound (SetSeed p b h q) = isOutbound (h q) ∧
  running (SetSeed p b h q) = running (h q).
Proof. unfold SetSeed, upd. case_decide; subst; done. Qed.

(** The loop of [AddPeer] touches neither map and changes no identity,
    address or direction of a peer object. *)
Lemma AddPeer_range_frame (peer : ptr) (w : World) (rest : list ptr)
    (i0 : nat) :
  let w' := AddPeer_range peer i0 rest w in
  peerMap (table w') = peerMap (table w) ∧
  addrMap (table w') = addrMap (table w) ∧
  ∀ q, ID (heap w') q = ID (heap w) q ∧
       NetAddress (heap w') q = NetAddress (heap w) q ∧
       IsOutbound (heap w') q = IsOutbound (heap w) q.
Proof.
  revert i0. induction rest as [|p rest IH]; intros i0; cbn [AddPeer_range].
  - done.
  - case_decide as E; [|apply IH].
    cbn [heap table peerMap addrMap set_peers]. split; [done|]. split; [done|].
    intros q. unfold ID, NetAddress, IsOutbound.
    destruct (Stop_frame p q (heap w)) as (S1 & S2 & S3 & _).
    destruct (isOutbound (Stop p (heap w) p)); [|done].
    destruct (SetSeed_frame peer q (IsSeed (Stop p (heap w)) p)
                (Stop p (heap w))) as (T1 & T2 & T3 & _).
    unfold IsSeed in *. by rewrite T1, T2, T3.
Qed.

(** X1.  After [AddPeer(peer)], whatever the registry was, [GetPeer] finds
    [peer] under its identity and [GetPeerWithAddr] under its address, both
    existence probes answer true, the lookups of every other identity and
    address are what they were, and no peer object has changed its
    identity, address or direction. *)
Theorem AddPeer_then_lookup (w : World) (peer : ptr) :
  let w' := (AddPeer peer w).2 in
  GetPeer (ID (heap w) peer) w' = Some peer ∧
  GetPeerWithAddr (NetAddress (heap w) peer) w' = Some peer ∧
  PeerExists (ID (heap w) peer) w' = true ∧
  PeerAddrExists (NetAddress (heap w) peer) w' = true ∧
  (∀ peerID, peerID ≠ ID (heap w) peer →
             GetPeer peerID w' = GetPeer peerID w) ∧
  (∀ a, a ≠ NetAddress (heap w) peer →
        GetPeerWithAddr a w' = GetPeerWithAddr a w) ∧
  (∀ q, ID (heap w') q = ID (heap w) q ∧
        NetAddress (heap w') q = NetAddress (heap w) q ∧
        IsOutbound (heap w') q = IsOutbound (heap w) q).
Proof.
  intros w'. subst w'. unfold AddPeer, GetPeer, GetPeerWithAddr, PeerExists,
    PeerAddrExists.
  set (w1 := match peerMap (table w) !! ID (heap w) peer with
             | Some _ => AddPeer_range peer 0 (peers (table w)) w
             | None => mkWorld (heap w)
                         (set_peers (peers (table w) ++ [peer]) (table w))
             end).
  assert (peerMap (table w1) = peerMap (table w) ∧
          addrMap (table w1) = addrMap (table w) ∧
          ∀ q, ID (heap w1) q = ID (heap w) q ∧
               NetAddress (heap w1) q = NetAddress (heap w) q ∧
               IsOutbound (heap w1) q = IsOutbound (heap w) q)
    as (Hpm & Ham & Hids).
  { subst w1. destruct (peerMap (table w) !! ID (heap w) peer).
    - apply AddPeer_range_frame.
    - done. }
  cbn [snd heap table peerMap addrMap].
  destruct (Hids peer) as (Hid & Haddr & _). rewrite Hid, Haddr, Hpm, Ham.
  rewrite !lookup_insert_eq.
  split; [done|]. split; [done|].
  split; [by apply bool_decide_eq_true_2|].
  split; [by apply bool_decide_eq_true_2|].
  split; [intros peerID Hne; by rewrite lookup_insert_ne|].
  split; [intros a Hne; by rewrite lookup_insert_ne|].
  exact Hids.
Qed.

(** ** Deletion and lookup *)

Lemma DeletePeer_range_shrinks (h : Heap) (peerID : string) (k idx : nat)
    (arr arr' : list ptr) (m m' : nat) :
  DeletePeer_range h peerID k idx arr m = Ok (arr', m') → m' <= m.
Proof.
  revert idx arr m. induction k as [|k IH]; intros idx arr m Hrun.
  - cbn in Hrun. injection Hrun as _ <-. done.
  - cbn [DeletePeer_range] in Hrun.
    destruct (arr !! idx) as [p|]; [|done].
    case_decide.
    + case_decide; [|done]. apply IH in Hrun. lia.
    + by apply IH in Hrun.
Qed.

(** X2.  Whenever [DeletePeer(peerID)] returns, whatever the registry was,
    [GetPeer(peerID)] finds nothing and [PeerExists(peerID)] is false, the
    lookups of every other identity are what they were, no peer object has
    changed, and the registry has not grown; when the identity was not
    registered nothing at all has changed. *)
Theorem DeletePeer_then_lookup (w w' : World) (peerID : string) :
  DeletePeer peerID w = Ok w' →
  GetPeer peerID w' = None ∧
  PeerExists peerID w' = false ∧
  (∀ other, other ≠ peerID → GetPeer other w' = GetPeer other w) ∧
  heap w' = heap w ∧
  GetTotalNumPeers w' <= GetTotalNumPeers w ∧
  (GetPeer peerID w = None → w' = w).
Proof.
  unfold DeletePeer, GetPeer, PeerExists, GetTotalNumPeers. intros Hrun.
  destruct (peerMap (table w) !! peerID) as [peer|] eqn:Hlk.
  - destruct (DeletePeer_range _ _ _ _ _ _) as [[arr m]|] eqn:Hloop;
      [|done].
    cbn [bindR] in Hrun. injection Hrun as <-.
    cbn [heap table peerMap peers].
    rewrite lookup_delete_eq.
    split; [done|]. split; [apply bool_decide_eq_false_2; by intros [? ?]|].
    split; [intros other Hne; by rewrite lookup_delete_ne|].
    split; [done|]. split; [|done].
    apply DeletePeer_range_shrinks in Hloop. rewrite length_take. lia.
  - injection Hrun as <-. rewrite Hlk.
    split; [done|]. split; [apply bool_decide_eq_false_2; by intros [? ?]|].
    done.
Qed.

(** Deleting "A" from the registry of peers 1 ("A") and 2 ("B"). *)
Lemma DeletePeer_then_lookup_witness :
  ∃ w', DeletePeer "A" Fixtures.world12 = Ok w' ∧
        GetPeer "A" w' = None ∧
        GetPeer "B" w' = Some 2 ∧
        GetTotalNumPeers w' = 1.
Proof.
  eexists. split; [reflexivity|].
  destruct (DeletePeer_then_lookup Fixtures.world12 _ "A" eq_refl)
    as (Hget & _ & Hother & _).
  split; [exact Hget|]. split; [|reflexivity].
  rewrite (Hother "B"); [reflexivity|discriminate].
Defined.

(** In a well-formed registry the peer stored under an identity holds
    exactly one slot, and no other slot holds that identity. *)
Lemma wf_slot (w : World) (peerID : string) (peer : ptr) :
  wf w →
  peerMap (table w) !! peerID = Some peer →
  ∃ l1 l2,
    peers (table w) = l1 ++ peer :: l2 ∧
    ID (heap w) peer = peerID ∧
    Forall (λ q, ID (heap w) q ≠ peerID) l1 ∧
    Forall (λ q, ID (heap w) q ≠ peerID) l2 ∧
    peer ∉ l1 ++ l2.
Proof.
  intros ((Hseq & Hpm & Ham) & Hkey & Hakey & Hnd) Hlk.
  pose proof (Hpm _ _ Hlk) as Hin. pose proof (Hkey _ _ Hlk) as Hid.
  apply list_elem_of_split in Hin as (l1 & l2 & El).
  rewrite El in Hnd. apply NoDup_app in Hnd as (Hnd1 & Hsep & Hnd2).
  apply NoDup_cons in Hnd2 as [Hnotin2 Hnd2].
  assert (∀ q, q ∈ peers (table w) → q ≠ peer → ID (heap w) q ≠ peerID)
    as Hother.
  { intros q Hq Hne E. destruct (Hseq q Hq) as [Hq1 _].
    unfold inPeerMap in Hq1. rewrite E, Hlk in Hq1. congruence. }
  exists l1, l2. split; [done|]. split; [done|].
  split; [|split].
  - apply Forall_forall. intros q Hq. apply Hother.
    + rewrite El. apply elem_of_app. by left.
    + intros ->. apply (Hsep peer Hq). by left.
  - apply Forall_forall. intros q Hq. apply Hother.
    + rewrite El. apply elem_of_app. right. by right.
    + by intros ->.
  - intros Hin. apply elem_of_app in Hin as [Hin|Hin]; [|done].
    apply (Hsep peer Hin). by left.
Qed.

(** [DeletePeer] when exactly one slot holds the identity. *)
Lemma DeletePeer_present (w : World) (peerID : string) (peer : ptr)
    (l1 l2 : list ptr) :
  peerMap (table w) !! peerID = Some peer →
  peers (table w) = l1 ++ peer :: l2 →
  ID (heap w) peer = peerID →
  Forall (λ q, ID (heap w) q ≠ peerID) l1 →
  Forall (λ q, ID (heap w) q ≠ peerID) l2 →
  DeletePeer peerID w =
  Ok (mkWorld (heap w)
        (mkTable (delete peerID (peerMap (table w))) (l1 ++ l2)
                 (delete (NetAddress (heap w) peer) (addrMap (table w))))).
Proof.
  intros Hlk El Hid Hl1 Hl2. unfold DeletePeer. rewrite Hlk, El.
  destruct (DeletePeer_range_one (heap w) peerID l1 l2 peer Hid Hl1 Hl2)
    as (arr' & m' & -> & Htake).
  cbn [bindR]. by rewrite Htake.
Qed.

(** X3.  On a well-formed registry, [DeletePeer] of a registered identity
    returns without a panic and removes that peer, and only that peer, from
    all three views: its slot leaves the sequence (the order of the others
    is kept), neither its identity nor its address is found any more, the
    count drops by one, and the registry is well formed again. *)
Theorem DeletePeer_removes_peer (w : World) (peerID : string) (peer : ptr) :
  wf w →
  GetPeer peerID w = Some peer →
  ∃ l1 l2 w',
    GetAllPeers w = l1 ++ peer :: l2 ∧
    DeletePeer peerID w = Ok w' ∧
    GetAllPeers w' = l1 ++ l2 ∧
    (peer ∉ GetAllPeers w') ∧
    GetPeer peerID w' = None ∧
    GetPeerWithAddr (NetAddress (heap w) peer) w' = None ∧
    GetTotalNumPeers w' + 1 = GetTotalNumPeers w ∧
    wf w'.
Proof.
  unfold GetPeer, GetAllPeers, GetPeerWithAddr, GetTotalNumPeers.
  intros Hwf Hlk.
  destruct (wf_slot w peerID peer Hwf Hlk) as (l1 & l2 & El & Hid & Hl1 & Hl2 & Hnotin).
  pose proof (DeletePeer_present w peerID peer l1 l2 Hlk El Hid Hl1 Hl2) as Hrun.
  destruct (DeletePeer_wf peerID w Hwf) as (w' & Hrun' & Hwf').
  rewrite Hrun in Hrun'. injection Hrun' as <-.
  eexists l1, l2, _. split; [done|]. split; [exact Hrun|].
  cbn [heap table peerMap peers addrMap].
  split; [done|]. split; [done|].
  rewrite !lookup_delete_eq. split; [done|]. split; [done|].
  split; [|done]. rewrite El, !length_app. simpl. lia.
Qed.

(** Deleting "A" from the registry of peers 1 ("A") and 2 ("B"). *)
Lemma DeletePeer_removes_peer_witness :
  ∃ l1 l2 w',
    [1; 2] = l1 ++ 1 :: l2 ∧
    DeletePeer "A" Fixtures.world12 = Ok w' ∧
    GetAllPeers w' = l1 ++ l2 ∧
    (1 ∉ GetAllPeers w') ∧
    GetPeer "A" w' = None ∧
    GetPeerWithAddr 11 w' = None ∧
    GetTotalNumPeers w' + 1 = 2 ∧
    wf w'.
Proof.
  apply (DeletePeer_removes_peer Fixtures.world12 "A" 1); [|reflexivity].
  destruct (run_wf [OpAddPeer 1; OpAddPeer 2] Fixtures.world0
              (CreatePeerTable_wf Fixtures.heap0)) as (w' & Hrun & Hwf).
  - cbn. repeat split; reflexivity.
  - vm_compute in Hrun. injection Hrun as <-. exact Hwf.
Defined.

(** ** Sequences of insertions *)

(** X5.  Adding peers of pairwise distinct identities to the empty table
    registers every one of them: the count is the number of peers added, the
    sequence lists them in the order of insertion, each is found under its
    identity, and no peer object is touched (none is stopped). *)
Theorem AddPeers_distinct (h : Heap) (l : list ptr) :
  NoDup (ID h <$> l) →
  let w := AddPeers l (mkWorld h CreatePeerTable) in
  GetTotalNumPeers w = length l ∧
  GetAllPeers w = l ∧
  heap w = h ∧
  ∀ p, p ∈ l → GetPeer (ID h p) w = Some p.
Proof.
  intros Hnd w. subst w. unfold GetTotalNumPeers, GetAllPeers, GetPeer, AddPeers.
  assert (let w := foldl (λ w peer, (AddPeer peer w).2)
                     (mkWorld h CreatePeerTable) l in
          heap w = h ∧ peers (table w) = l ∧
          (∀ k, k ∉ ID h <$> l → peerMap (table w) !! k = None) ∧
          (∀ p, p ∈ l → peerMap (table w) !! ID h p = Some p)) as Hinv.
  { induction l as [|x l IH] using rev_ind.
    - cbn. split; [done|]. split; [done|]. split; [done|].
      intros p Hp. by apply elem_of_nil in Hp.
    - rewrite fmap_app in Hnd. apply NoDup_app in Hnd as (Hnd & Hsep & _).
      destruct (IH Hnd) as (Hh & Hl & Hnone & Hfind). clear IH.
      assert (ID h x ∉ ID h <$> l) as Hx.
      { intros Hin. apply (Hsep _ Hin). apply list_elem_of_here. }
      rewrite foldl_snoc. cbv zeta.
      set (w := foldl (λ w peer, (AddPeer peer w).2)
                  (mkWorld h CreatePeerTable) l) in *.
      unfold AddPeer. rewrite Hh, (Hnone _ Hx).
      cbn [snd heap table peerMap peers addrMap set_peers].
      rewrite ?Hh, Hl. split; [done|]. split; [done|]. split.
      + intros k Hk. rewrite fmap_app in Hk.
        rewrite lookup_insert_ne.
        * apply Hnone. intros Hin. apply Hk, elem_of_app. by left.
        * intros <-. apply Hk, elem_of_app. right. apply list_elem_of_here.
      + intros p Hp. apply elem_of_app in Hp as [Hp|Hp].
        * rewrite lookup_insert_ne; [by apply Hfind|].
          intros E. apply Hx. rewrite E. by apply list_elem_of_fmap_2.
        * apply list_elem_of_singleton in Hp as ->. apply lookup_insert_eq. }
  destruct Hinv as (Hh & Hl & _ & Hfind).
  rewrite Hl. by repeat split.
Qed.

(** Three peers with the identities "A", "B" and "C". *)
Lemma AddPeers_distinct_witness :
  let w := AddPeers [1; 2; 4] Fixtures.world0 in
  GetTotalNumPeers w = 3 ∧
  GetAllPeers w = [1; 2; 4] ∧
  heap w = Fixtures.heap0 ∧
  ∀ p, p ∈ [1; 2; 4] → GetPeer (ID Fixtures.heap0 p) w = Some p.
Proof.
  apply (AddPeers_distinct Fixtures.heap0 [1; 2; 4]).
  apply (bool_decide_unpack _). vm_compute. reflexivity.
Defined.

(** X4.  From a well-formed registry, every sequence of [DeletePeer] calls
    and of [AddPeer] calls on peers whose identity and address are not
    registered when they are added runs to its end without a panic and
    leaves the three views consistent, with map keys that are the
    identities and addresses of the peers stored under them and no peer in
    two slots. *)
Theorem adds_and_deletes_keep_views (ops : list Op) (w : World) :
  wf w → addsFreshOrDeletes ops w → ∃ w', run ops w = Ok w' ∧ wf w'.
Proof. apply run_wf. Qed.

(** Adding peers 1 and 2, deleting "A", adding peer 3 (which carries "A"
    again) and peer 4, starting from the empty table. *)
Lemma adds_and_deletes_keep_views_witness :
  ∃ w', run [OpAddPeer 1; OpAddPeer 2; OpDeletePeer "A"; OpAddPeer 3;
             OpAddPeer 4] Fixtures.world0 = Ok w' ∧
        wf w'.
Proof.
  apply adds_and_deletes_keep_views.
  - apply CreatePeerTable_wf.
  - cbn [addsFreshOrDeletes].
    split; [split; reflexivity|]. split; [split; reflexivity|].
    intros w' Hdel. vm_compute in Hdel. injection Hdel as <-.
    split; [split; reflexivity|]. split; [split; reflexivity|]. exact I.
Defined.

(** ** Insertion composed with itself and with deletion *)

Lemma upd_other (h : Heap) (p q : ptr) (v : Peer) :
  q ≠ p → upd h p v q = h q.
Proof. intros Hne. unfold upd. by rewrite decide_False. Qed.

(** X6.  Adding a peer object that is already registered stops it: when
    [peer] is new to the registry, a second [AddPeer(peer)] right after the
    first finds the peer itself as the duplicate, so the peer ends up
    stopped while the registry (all three views) is what the first call
    left, the seed flag of [peer] is unchanged and no other peer object is
    touched. *)
Theorem AddPeer_again_stops_peer (w : World) (peer : ptr) :
  peerMap (table w) !! ID (heap w) peer = None →
  Forall (λ q, ID (heap w) q ≠ ID (heap w) peer) (peers (table w)) →
  let w1 := (AddPeer peer w).2 in
  let w2 := (AddPeer peer w1).2 in
  heap w1 = heap w ∧
  GetAllPeers w1 = GetAllPeers w ++ [peer] ∧
  table w2 = table w1 ∧
  running (heap w2 peer) = false ∧
  IsSeed (heap w2) peer = IsSeed (heap w) peer ∧
  (∀ q, q ≠ peer → heap w2 q = heap w q).
Proof.
  intros Hnone Hall w1 w2.
  assert (w1 = mkWorld (heap w)
                 (mkTable (<[ID (heap w) peer := peer]> (peerMap (table w)))
                          (peers (table w) ++ [peer])
                          (<[NetAddress (heap w) peer := peer]>
                             (addrMap (table w))))) as E1.
  { subst w1. unfold AddPeer. by rewrite Hnone. }
  subst w2. rewrite E1. unfold GetAllPeers.
  cbn [heap table peers]. split; [done|]. split; [done|].
  set (h2 := if IsOutbound (Stop peer (heap w)) peer
             then SetSeed peer (IsSeed (Stop peer (heap w)) peer)
                    (Stop peer (heap w))
             else Stop peer (heap w)).
  destruct (heap_after_replace (heap w) peer peer)
    as (Hrun & Hseed & Hid & Haddr).
  cbv zeta in Hrun, Hseed, Hid, Haddr. fold h2 in Hrun, Hseed, Hid, Haddr.
  match goal with
  | |- context [AddPeer peer ?w0] =>
      assert ((AddPeer peer w0).2 = mkWorld h2 (table w0)) as ->
  end.
  { unfold AddPeer. cbn [heap table peerMap peers addrMap].
    rewrite lookup_insert_eq.
    rewrite (AddPeer_range_first peer peer _ _ 0 (length (peers (table w)))).
    - cbn [snd heap table peerMap peers addrMap set_peers Nat.add].
      fold h2. rewrite Hid, Haddr. f_equal. f_equal.
      + apply insert_insert_eq.
      + apply list_insert_id. by apply list_lookup_middle.
      + apply insert_insert_eq.
    - cbn [table peers]. by apply list_lookup_middle.
    - done.
    - cbn [heap table peers]. intros j q Hj Hq.
      rewrite lookup_app_l in Hq by done.
      eapply (proj1 (Forall_forall _ _) Hall).
      by eapply list_elem_of_lookup_2. }
  cbn [heap table]. split; [done|]. split; [exact Hrun|]. split.
  - rewrite Hseed. by destruct (IsOutbound (heap w) peer).
  - intros q Hne. subst h2.
    destruct (IsOutbound (Stop peer (heap w)) peer).
    + unfold SetSeed. rewrite upd_other by done.
      unfold Stop. by rewrite upd_other.
    + unfold Stop. by rewrite upd_other.
Qed.

(** Peer 4 ("C") added twice to the registry of peers 1 and 2. *)
Lemma AddPeer_again_stops_peer_witness :
  let w1 := (AddPeer 4 Fixtures.world12).2 in
  let w2 := (AddPeer 4 w1).2 in
  heap w1 = Fixtures.heap0 ∧
  GetAllPeers w1 = [1; 2; 4] ∧
  table w2 = table w1 ∧
  running (heap w2 4) = false ∧
  IsSeed (heap w2) 4 = false ∧
  (∀ q, q ≠ 4 → heap w2 q = Fixtures.heap0 q).
Proof.
  apply (AddPeer_again_stops_peer Fixtures.world12 4).
  - reflexivity.
  - repeat constructor; discriminate.
Defined.

(** X7.  Deleting a peer right after adding it restores the registry: when
    neither the identity nor the address of [peer] is registered and no
    slot holds its identity, [DeletePeer] of that identity after
    [AddPeer(peer)] returns the world [AddPeer] started from. *)
Theorem AddPeer_then_DeletePeer (w : World) (peer : ptr) :
  fresh peer w →
  Forall (λ q, ID (heap w) q ≠ ID (heap w) peer) (peers (table w)) →
  DeletePeer (ID (heap w) peer) (AddPeer peer w).2 = Ok w.
Proof.
  intros [Hf1 Hf2] Hall. unfold AddPeer. rewrite Hf1.
  cbn [snd heap table peerMap peers addrMap set_peers].
  rewrite (DeletePeer_present _ (ID (heap w) peer) peer (peers (table w)) []).
  - cbn [heap table peerMap peers addrMap].
    rewrite app_nil_r, !delete_insert_id by done.
    by destruct w as [h [pm l am]].
  - cbn. apply lookup_insert_eq.
  - done.
  - done.
  - done.
  - done.
Qed.

(** Peer 4 ("C") added to and deleted from the registry of peers 1 and 2. *)
Lemma AddPeer_then_DeletePeer_witness :
  DeletePeer "C" (AddPeer 4 Fixtures.world12).2 = Ok Fixtures.world12.
Proof.
  apply (AddPeer_then_DeletePeer Fixtures.world12 4).
  - split; reflexivity.
  - repeat constructor; discriminate.
Defined.

(** ** Selection on a small registry *)

Lemma numPeersOf_small (n : Z) :
  (0 < n <= 32)%Z → numPeersOf n = n.
Proof.
  intros Hn. unfold numPeersOf, MaxInt, MinInt, minGetSelection,
    maxGetSelection, getSelectionPercent.
  assert (wrap64 (n * 23) = n * 23)%Z as ->.
  { unfold wrap64. rewrite Z.mod_small; lia. }
  assert (0 <= n * 23 ÷ 100 <= n)%Z.
  { rewrite Z.quot_div_nonneg by lia. split.
    - apply Z.div_pos; lia.
    - apply Z.div_le_upper_bound; lia. }
  repeat case_match; lia.
Qed.

(** X8.  On a registry of at most 32 peers (and at least one)
    [GetSelection] returns every registered peer exactly once: whatever the
    draws, there is a reordering [ps] of the sequence such that the k-th
    pair of the result has the identity of the k-th peer of [ps] in its
    [ID] field and that peer's address in its [Addr] field; the registry is
    left as it was. *)
Theorem GetSelection_small_registry (rnd : nat → nat) (w : World) :
  peers (table w) ≠ [] →
  length (peers (table w)) <= 32 →
  ∃ sel ps,
    GetSelection rnd w = Ok (sel, w) ∧
    ps ≡ₚ peers (table w) ∧
    length sel = length (peers (table w)) ∧
    Forall2 (λ p pr, pia_ID pr = peer_id (heap w p) ∧
                     pia_Addr pr = netAddress (heap w p))
            ps sel.
Proof.
  intros Hne Hlen.
  destruct (GetSelection_run rnd w Hne) as (perm & Hperm & Hrun).
  cbv zeta in Hrun. rewrite numPeersOf_small in Hrun.
  - rewrite Nat2Z.id in Hrun.
    assert (length perm = length (peers (table w))) as Hlp
      by (by rewrite Hperm, length_seq).
    rewrite <- Hlp, firstn_all in Hrun.
    eexists. exists ((λ i, default 0 (peers (table w) !! i)) <$> perm).
    split; [exact Hrun|]. split; [|split].
    + rewrite Hperm. by rewrite <- list_as_fmap_seq.
    + by rewrite !length_fmap.
    + apply Forall2_fmap_r, Forall_Forall2_diag, Forall_forall.
      intros p _. split; reflexivity.
  - destruct (peers (table w)); [done|]. simpl in *. lia.
Qed.

(** The registry of twelve peers: all twelve pairs come back. *)
Lemma GetSelection_small_registry_witness :
  ∃ sel ps,
    GetSelection Fixtures.draws (Fixtures.registry 12)
      = Ok (sel, Fixtures.registry 12) ∧
    ps ≡ₚ peers (table (Fixtures.registry 12)) ∧
    length sel = length (peers (table (Fixtures.registry 12))) ∧
    Forall2 (λ p pr, pia_ID pr = peer_id (heap (Fixtures.registry 12) p) ∧
                     pia_Addr pr = netAddress (heap (Fixtures.registry 12) p))
            ps sel.
Proof.
  apply GetSelection_small_registry.
  - vm_compute. discriminate.
  - vm_compute. lia.
Defined.

(** * Further properties of the sync manager *)

(** ** The chain walk of an inventory request *)

Lemma firstChildPath_app_l (m : SyncManager) (l1 l2 : list Bytes) :
  firstChildPath m (l1 ++ l2) → firstChildPath m l1.
Proof.
  induction l1 as [|h1 l1 IH]; [done|].
  destruct l1 as [|h2 l1]; [done|].
  cbn [app firstChildPath]. intros [Hstep Hrest]. split; [done|].
  by apply IH.
Qed.

Lemma firstChildPath_snoc (m : SyncManager) (l : list Bytes) (a b : Bytes)
    (eb : ExtendedBlock) :
  firstChildPath m (l ++ [a]) →
  FindBlock m a = Some eb →
  head (Children eb) = Some b →
  firstChildPath m ((l ++ [a]) ++ [b]).
Proof.
  intros Hpath Ha Hb. induction l as [|h1 l IH].
  - cbn. split; [by exists eb|done].
  - destruct l as [|h2 l].
    + cbn in *. destruct Hpath as [Hstep _]. split; [done|].
      split; [by exists eb|done].
    + cbn [app firstChildPath] in *. destruct Hpath as [Hstep Hrest].
      split; [done|]. by apply IH.
Qed.

(** What the walk ends in: either the error log of a failed block lookup
    and no response, or one response whose entries encode the hashes
    collected before the loop followed by a path [tl] of first children
    that starts at the current hash and has at most one hash per iteration
    plus one. *)
Lemma handleInvRequest_loop_result (m : SyncManager) (peerID : string)
    (k : nat) (curr end_ : Bytes) (acc : list Bytes) :
  firstChildPath m (acc ++ [curr]) →
  handleInvRequest_loop m peerID k curr end_ (EncodeToString <$> acc)
    = [Log Error "Failed to find block with given hash"] ∨
  ∃ tl,
    handleInvRequest_loop m peerID k curr end_ (EncodeToString <$> acc)
      = sendInventory peerID (EncodeToString <$> (acc ++ tl)) ∧
    firstChildPath m (acc ++ tl) ∧
    (0 < k → head tl = Some curr) ∧
    length tl <= k + 1.
Proof.
  revert curr acc. induction k as [|k IH]; intros curr acc Hpath.
  - right. exists []. rewrite app_nil_r. cbn [handleInvRequest_loop].
    split; [done|]. split; [by eapply firstChildPath_app_l|].
    split; [lia|simpl; lia].
  - rewrite handleInvRequest_loop_S.
    destruct (FindBlock m curr) as [block|] eqn:Hfind; [|by left].
    destruct (Children block) as [|child rest] eqn:Hch.
    + right. exists [curr]. rewrite fmap_app. split; [done|].
      split; [done|]. split; [done|simpl; lia].
    + assert (firstChildPath m ((acc ++ [curr]) ++ [child])) as Hpath'.
      { eapply firstChildPath_snoc; [done|exact Hfind|by rewrite Hch]. }
      case_decide as Hend.
      * right. exists [curr; child]. subst end_.
        replace (acc ++ [curr; child]) with ((acc ++ [curr]) ++ [child])
          by (by rewrite <- app_assoc).
        rewrite !fmap_app. split; [done|]. split; [done|].
        split; [done|simpl; lia].
      * replace ((EncodeToString <$> acc) ++ [EncodeToString curr])
          with (EncodeToString <$> (acc ++ [curr]))
          by (by rewrite fmap_app).
        destruct (IH child (acc ++ [curr]) Hpath')
          as [->|(tl & -> & Hp & _ & Hlen)]; [by left|].
        right. exists (curr :: tl).
        replace (acc ++ curr :: tl) with ((acc ++ [curr]) ++ tl)
          by (by rewrite <- app_assoc).
        split; [done|]. split; [done|]. split; [done|simpl; lia].
Qed.

(** The request as a whole: only log lines, or the two debug lines and one
    response to the requesting peer. *)
Lemma handleInvRequest_result (m : SyncManager) (peerID : string)
    (req : InventoryRequest) :
  Forall (λ e, isLog e = true) (handleInvRequest m peerID req) ∨
  ∃ start hs,
    ireq_ChannelID req = ChannelIDBlock ∧
    DecodeString (Start req) = Some start ∧
    handleInvRequest m peerID req
      = Log Debug "Received inventory request"
        :: sendInventory peerID (EncodeToString <$> hs) ∧
    firstChildPath m hs ∧
    (0 < MaxInventorySize m → head hs = Some start) ∧
    length hs <= MaxInventorySize m + 1.
Proof.
  unfold handleInvRequest.
  destruct (ireq_ChannelID req); try (left; by repeat constructor).
  case_decide; [left; by repeat constructor|].
  destruct (DecodeString (Start req)) as [start|];
    [|left; by repeat constructor].
  destruct (DecodeString (End_ req)) as [end_|];
    [|left; by repeat constructor].
  destruct (handleInvRequest_loop_result m peerID (MaxInventorySize m)
              start end_ []) as [E|(tl & E & Hp & Hhd & Hlen)]; [done| |].
  - cbn [fmap list_fmap] in E. rewrite E. left. by repeat constructor.
  - cbn [fmap list_fmap app] in E. right. exists start, tl.
    rewrite E. by repeat split.
Qed.

(** A trace of log lines reaches no collaborator. *)
Lemma only_logs (peerID : string) (tr : Trace) :
  Forall (λ e, isLog e = true) tr →
  sentInventories tr = [] ∧ sentData tr = [] ∧ registered tr = [] ∧
  resolved tr = [] ∧ consumed tr = [] ∧ Forall (concernsOnly peerID) tr.
Proof.
  induction 1 as [|e tr He _ IH]; [by repeat split|].
  destruct IH as (I1 & I2 & I3 & I4 & I5 & I6).
  destruct e; try discriminate.
  unfold sentInventories, sentData, registered, resolved, consumed in *.
  cbn [omap list_omap]. rewrite I1, I2, I3, I4, I5.
  repeat split; try done. by constructor.
Qed.

(** X9.  No inventory response holds more than
    [dispatcher.MaxInventorySize + 1] entries: one per iteration of the
    walk, plus the end hash. *)
Theorem handleInvRequest_entries_bound (m : SyncManager) (peerID : string)
    (req : InventoryRequest) (resp : InventoryResponse) :
  resp ∈ sentInventories (handleInvRequest m peerID req) →
  length (iresp_Entries resp) <= MaxInventorySize m + 1.
Proof.
  intros Hin.
  destruct (handleInvRequest_result m peerID req)
    as [Hlogs|(start & hs & _ & _ & E & _ & _ & Hlen)].
  - destruct (only_logs peerID _ Hlogs) as (E & _). rewrite E in Hin.
    by apply elem_of_nil in Hin.
  - rewrite E in Hin. cbn in Hin. apply list_elem_of_singleton in Hin as ->.
    cbn. by rewrite length_fmap.
Qed.

(** On the chain 0a -> 0b -> 0c with the constant at 2, the walk from 0a
    toward 0c answers with three entries. *)
Lemma handleInvRequest_entries_bound_witness :
  let resp := mkInventoryResponse ChannelIDBlock ["0a"; "0b"; "0c"] in
  resp ∈ sentInventories
           (handleInvRequest (ChainFixtures.chainABC 2) "peer"
              (mkInventoryRequest ChannelIDBlock "0a" "0c")) ∧
  length (iresp_Entries resp) <= 2 + 1.
Proof.
  intros resp.
  assert (resp ∈ sentInventories
                   (handleInvRequest (ChainFixtures.chainABC 2) "peer"
                      (mkInventoryRequest ChannelIDBlock "0a" "0c")))
    as Hin by (vm_compute; apply list_elem_of_here).
  split; [exact Hin|].
  exact (handleInvRequest_entries_bound _ _ _ _ Hin).
Defined.

(** X10.  An inventory request on another channel than the block channel,
    without a start hash, with a start or an end hash that is no
    hexadecimal string, or whose start block is not in the chain, is
    answered with nothing: the handler only writes log lines. *)
Theorem handleInvRequest_rejects (m : SyncManager) (peerID : string)
    (req : InventoryRequest) :
  ireq_ChannelID req ≠ ChannelIDBlock ∨
  Start req = EmptyString ∨
  DecodeString (Start req) = None ∨
  DecodeString (End_ req) = None ∨
  (0 < MaxInventorySize m ∧
   ∃ start, DecodeString (Start req) = Some start ∧
            FindBlock m start = None) →
  Forall (λ e, isLog e = true) (handleInvRequest m peerID req) ∧
  sentInventories (handleInvRequest m peerID req) = [].
Proof.
  intros Hbad.
  assert (Forall (λ e, isLog e = true) (handleInvRequest m peerID req))
    as Hlogs; [|split; [done|by destruct (only_logs peerID _ Hlogs)]].
  unfold handleInvRequest.
  destruct (ireq_ChannelID req) eqn:Hc; try by repeat constructor.
  case_decide as Hs; [by repeat constructor|].
  destruct (DecodeString (Start req)) as [start|] eqn:Hd1;
    [|by repeat constructor].
  destruct (DecodeString (End_ req)) as [end_|] eqn:Hd2;
    [|by repeat constructor].
  destruct Hbad as [?|[?|[?|[?|(Hmax & start' & Hd & Hfind)]]]]; try done.
  injection Hd as <-.
  destruct (MaxInventorySize m) as [|k]; [lia|].
  rewrite handleInvRequest_loop_S, Hfind. by repeat constructor.
Qed.

(** A request on the vote channel, and one for a block the chain does not
    have. *)
Lemma handleInvRequest_rejects_witness :
  sentInventories
    (handleInvRequest (ChainFixtures.chainABC 50) "peer"
       (mkInventoryRequest ChannelIDVote "0a" "0c")) = [] ∧
  sentInventories
    (handleInvRequest (ChainFixtures.chainABC 50) "peer"
       (mkInventoryRequest ChannelIDBlock "0d" "0c")) = [].
Proof.
  split.
  - apply (handleInvRequest_rejects (ChainFixtures.chainABC 50) "peer").
    left. discriminate.
  - apply (handleInvRequest_rejects (ChainFixtures.chainABC 50) "peer").
    do 4 right. split; [cbn; lia|]. exists [Byte.x0d]. split; reflexivity.
Defined.

(** X11.  An inventory request is answered with at most one inventory
    response, which goes to the requesting peer alone and is on the block
    channel; the handler sends no data and hands nothing to the request
    manager or to the consumer. *)
Theorem handleInvRequest_answers_requester (m : SyncManager)
    (peerID : string) (req : InventoryRequest) :
  let tr := handleInvRequest m peerID req in
  length (sentInventories tr) <= 1 ∧
  (∀ peerIDs resp, SendInventory peerIDs resp ∈ tr →
                   peerIDs = [peerID] ∧ iresp_ChannelID resp = ChannelIDBlock) ∧
  sentData tr = [] ∧ registered tr = [] ∧ resolved tr = [] ∧
  consumed tr = [].
Proof.
  intros tr. subst tr.
  destruct (handleInvRequest_result m peerID req)
    as [Hlogs|(start & hs & _ & _ & E & _)].
  - destruct (only_logs peerID _ Hlogs) as (E1 & E2 & E3 & E4 & E5 & _).
    rewrite E1, E2, E3, E4, E5. split; [simpl; lia|]. split; [|done].
    intros peerIDs resp Hin.
    apply (proj1 (Forall_forall _ _) Hlogs) in Hin. discriminate.
  - rewrite E. split; [simpl; lia|]. split; [|done].
    intros peerIDs resp Hin. unfold sendInventory in Hin.
    rewrite !elem_of_cons, elem_of_nil in Hin.
    destruct Hin as [?|[?|[Hin|[]]]]; try discriminate.
    by injection Hin as -> ->.
Qed.

(** X12.  The entries of an inventory response are the lower-case
    hexadecimal encodings of a path of the chain: when the constant is
    positive the path starts at the start hash of the request, and every
    later hash is the first recorded child of the block of the hash before
    it.  That response is the only one sent. *)
Theorem handleInvRequest_walks_first_children (m : SyncManager)
    (peerID : string) (req : InventoryRequest) (resp : InventoryResponse) :
  resp ∈ sentInventories (handleInvRequest m peerID req) →
  ∃ start hs,
    DecodeString (Start req) = Some start ∧
    iresp_Entries resp = EncodeToString <$> hs ∧
    firstChildPath m hs ∧
    (0 < MaxInventorySize m → head hs = Some start) ∧
    sentInventories (handleInvRequest m peerID req) = [resp].
Proof.
  intros Hin.
  destruct (handleInvRequest_result m peerID req)
    as [Hlogs|(start & hs & _ & Hd & E & Hp & Hhd & _)].
  - destruct (only_logs peerID _ Hlogs) as (E & _). rewrite E in Hin.
    by apply elem_of_nil in Hin.
  - rewrite E in Hin |- *. cbn in Hin.
    apply list_elem_of_singleton in Hin as ->.
    exists start, hs. by repeat split.
Qed.

(** The walk from 0a toward 0c on the chain 0a -> 0b -> 0c. *)
Lemma handleInvRequest_walks_first_children_witness :
  let m := ChainFixtures.chainABC 50 in
  let req := mkInventoryRequest ChannelIDBlock "0a" "0c" in
  let resp := mkInventoryResponse ChannelIDBlock ["0a"; "0b"; "0c"] in
  resp ∈ sentInventories (handleInvRequest m "peer" req) ∧
  ∃ start hs,
    DecodeString (Start req) = Some start ∧
    iresp_Entries resp = EncodeToString <$> hs ∧
    firstChildPath m hs ∧
    (0 < MaxInventorySize m → head hs = Some start) ∧
    sentInventories (handleInvRequest m "peer" req) = [resp].
Proof.
  intros m req resp.
  assert (resp ∈ sentInventories (handleInvRequest m "peer" req)) as Hin
    by (vm_compute; apply list_elem_of_here).
  split; [exact Hin|].
  exact (handleInvRequest_walks_first_children m "peer" req resp Hin).
Defined.

(** ** Effects by kind *)

Lemma no_sends (tr : Trace) :
  Forall (λ e, isSend e = false) tr →
  sentInventories tr = [] ∧ sentData tr = [].
Proof.
  induction 1 as [|e tr He _ [I1 I2]]; [done|].
  unfold sentInventories, sentData in *. cbn [omap list_omap].
  rewrite I1, I2. by destruct e.
Qed.

Lemma no_hand_offs (tr : Trace) :
  Forall (λ e, isHandOff e = false) tr →
  registered tr = [] ∧ resolved tr = [] ∧ consumed tr = [].
Proof.
  induction 1 as [|e tr He _ (I1 & I2 & I3)]; [done|].
  unfold registered, resolved, consumed in *. cbn [omap list_omap].
  rewrite I1, I2, I3. by destruct e.
Qed.

Lemma elem_of_sentData (tr : Trace) (resp : DataResponse) :
  resp ∈ sentData tr ↔ ∃ peerIDs, SendData peerIDs resp ∈ tr.
Proof.
  unfold sentData. rewrite list_elem_of_omap. split.
  - intros (e & He & Hr). destruct e; try discriminate.
    injection Hr as ->. by eexists.
  - intros (ps & Hin). by exists (SendData ps resp).
Qed.

(** ** Inventory responses *)

Lemma handleInvResponse_range_encoded (peerID : string) (hs : list Bytes) :
  handleInvResponse_range peerID (EncodeToString <$> hs)
  = (λ h, AddHash h [peerID]) <$> hs.
Proof.
  induction hs as [|h hs IH]; [done|].
  cbn [fmap list_fmap handleInvResponse_range].
  rewrite DecodeString_EncodeToString. f_equal. apply IH.
Qed.

(** The loop over the advertised hashes: nothing is sent, nothing but
    [AddHash] with the advertising peer is handed off. *)
Lemma handleInvResponse_range_shape (peerID : string) (entries : list string) :
  Forall (λ e, isSend e = false ∧ concernsOnly peerID e ∧
               (isHandOff e = true → ∃ h, e = AddHash h [peerID]))
         (handleInvResponse_range peerID entries).
Proof.
  induction entries as [|hashStr rest IH]; [by constructor|].
  cbn [handleInvResponse_range].
  destruct (DecodeString hashStr) as [hash|].
  - constructor; [|done]. cbn. split; [done|]. split; [by right|].
    intros _. by exists hash.
  - by repeat constructor.
Qed.

Lemma registered_range_app (peerID : string) (pre rest : list string) :
  Forall (λ e, is_Some (DecodeString e)) pre →
  registered (handleInvResponse_range peerID (pre ++ rest)) =
  omap (λ e, (λ h, (h, [peerID])) <$> DecodeString e) pre
  ++ registered (handleInvResponse_range peerID rest).
Proof.
  induction 1 as [|e pre [h Hh] _ IH]; [done|].
  cbn [app handleInvResponse_range omap list_omap]. rewrite Hh.
  unfold registered in *. cbn [omap list_omap fmap option_fmap option_map].
  by rewrite IH.
Qed.

(** X14.  An inventory response on the block channel registers its hashes
    with the request manager in order, each with the advertising peer as
    the one candidate, up to the first entry that is no hexadecimal string:
    that entry and every entry after it are dropped.  When every entry
    decodes, every entry is registered; on any other channel nothing is. *)
Theorem handleInvResponse_registers_until_failure (m : SyncManager)
    (peerID : string) :
  (∀ pre bad post,
     Forall (λ e, is_Some (DecodeString e)) pre →
     DecodeString bad = None →
     registered (handleInvResponse m peerID
                   (mkInventoryResponse ChannelIDBlock (pre ++ bad :: post)))
     = omap (λ e, (λ h, (h, [peerID])) <$> DecodeString e) pre) ∧
  (∀ entries,
     Forall (λ e, is_Some (DecodeString e)) entries →
     registered (handleInvResponse m peerID
                   (mkInventoryResponse ChannelIDBlock entries))
     = omap (λ e, (λ h, (h, [peerID])) <$> DecodeString e) entries ∧
     length (registered (handleInvResponse m peerID
                           (mkInventoryResponse ChannelIDBlock entries)))
     = length entries) ∧
  (∀ resp,
     iresp_ChannelID resp ≠ ChannelIDBlock →
     registered (handleInvResponse m peerID resp) = []).
Proof.
  split; [|split].
  - intros pre bad post Hpre Hbad. unfold handleInvResponse.
    cbn [iresp_ChannelID iresp_Entries].
    change (registered (Log Debug "Received InvResponse" :: ?t))
      with (registered t).
    rewrite (registered_range_app _ _ _ Hpre).
    cbn [handleInvResponse_range]. rewrite Hbad. cbn. by rewrite app_nil_r.
  - intros entries Hall. unfold handleInvResponse.
    cbn [iresp_ChannelID iresp_Entries].
    change (registered (Log Debug "Received InvResponse" :: ?t))
      with (registered t).
    assert (registered (handleInvResponse_range peerID entries)
            = omap (λ e, (λ h, (h, [peerID])) <$> DecodeString e) entries)
      as ->.
    { rewrite <- (app_nil_r entries) at 1.
      rewrite (registered_range_app _ _ _ Hall). cbn. by rewrite app_nil_r. }
    split; [done|].
    induction Hall as [|e l [h Hh] _ IH]; [done|].
    cbn [omap list_omap]. rewrite Hh. cbn. by rewrite IH.
  - intros resp Hc. unfold handleInvResponse.
    by destruct (iresp_ChannelID resp).
Qed.

(** Two hashes, an entry that is no hexadecimal string, one more hash. *)
Lemma handleInvResponse_registers_until_failure_witness :
  let m := ChainFixtures.chainABC 50 in
  registered (handleInvResponse m "peer"
                (mkInventoryResponse ChannelIDBlock ["0a"; "0B"; "xy"; "0c"]))
  = [([Byte.x0a], ["peer"]); ([Byte.x0b], ["peer"])] ∧
  registered (handleInvResponse m "peer"
                (mkInventoryResponse ChannelIDBlock ["0a"; "0b"]))
  = [([Byte.x0a], ["peer"]); ([Byte.x0b], ["peer"])] ∧
  registered (handleInvResponse m "peer"
                (mkInventoryResponse ChannelIDVote ["0a"; "0b"])) = [].
Proof.
  intros m.
  destruct (handleInvResponse_registers_until_failure m "peer")
    as (Hstop & Hall & Hother).
  split; [|split].
  - apply (Hstop ["0a"; "0B"] "xy" ["0c"]).
    + repeat constructor; by eexists.
    + reflexivity.
  - apply (Hall ["0a"; "0b"]). repeat constructor; by eexists.
  - apply Hother. discriminate.
Defined.

(** X13.  Whatever inventory response the manager sends, a manager that
    receives it registers every one of its entries: the entries are
    encodings written by [hex.EncodeToString], so none fails to decode, and
    the hashes registered are the hashes of the walk, each with the sender
    as candidate. *)
Theorem handleInvRequest_response_is_accepted (m m' : SyncManager)
    (peerID sender : string) (req : InventoryRequest)
    (resp : InventoryResponse) :
  resp ∈ sentInventories (handleInvRequest m peerID req) →
  ∃ hs,
    iresp_Entries resp = EncodeToString <$> hs ∧
    handleInvResponse m' sender resp =
      Log Debug "Received InvResponse" :: ((λ h, AddHash h [sender]) <$> hs) ∧
    registered (handleInvResponse m' sender resp)
      = (λ h, (h, [sender])) <$> hs.
Proof.
  intros Hin.
  destruct (handleInvRequest_result m peerID req)
    as [Hlogs|(start & hs & _ & _ & E & _)].
  - destruct (only_logs peerID _ Hlogs) as (E & _). rewrite E in Hin.
    by apply elem_of_nil in Hin.
  - rewrite E in Hin. cbn in Hin. apply list_elem_of_singleton in Hin as ->.
    exists hs. split; [done|]. unfold handleInvResponse.
    cbn [iresp_ChannelID iresp_Entries].
    rewrite handleInvResponse_range_encoded. split; [done|].
    unfold registered. cbn [omap list_omap]. clear E.
    induction hs as [|h hs IH]; [done|]. cbn. by rewrite IH.
Qed.

(** The answer to the request from 0a toward 0c, received from "sender". *)
Lemma handleInvRequest_response_is_accepted_witness :
  let m := ChainFixtures.chainABC 50 in
  let resp := mkInventoryResponse ChannelIDBlock ["0a"; "0b"; "0c"] in
  resp ∈ sentInventories
           (handleInvRequest m "peer"
              (mkInventoryRequest ChannelIDBlock "0a" "0c")) ∧
  ∃ hs,
    iresp_Entries resp = EncodeToString <$> hs ∧
    handleInvResponse m "sender" resp =
      Log Debug "Received InvResponse" :: ((λ h, AddHash h ["sender"]) <$> hs) ∧
    registered (handleInvResponse m "sender" resp)
      = (λ h, (h, ["sender"])) <$> hs.
Proof.
  intros m resp.
  assert (resp ∈ sentInventories
                   (handleInvRequest m "peer"
                      (mkInventoryRequest ChannelIDBlock "0a" "0c"))) as Hin
    by (vm_compute; apply list_elem_of_here).
  split; [exact Hin|].
  exact (handleInvRequest_response_is_accepted m m "peer" "sender" _ resp Hin).
Defined.

(** ** Data requests, whatever their entries *)

(** The loop over the requested hashes: every effect is a log line or a
    data response to the requesting peer that serves one of the entries. *)
Lemma handleDataRequest_range_shape (m : SyncManager) (peerID : string)
    (entries : list string) :
  Forall (λ e, isHandOff e = false ∧ concernsOnly peerID e ∧
               (isSend e = true →
                ∃ h resp, e = SendData [peerID] resp ∧ h ∈ entries ∧
                          serve m h = Some resp))
         (handleDataRequest_range m peerID entries) ∧
  length (sentData (handleDataRequest_range m peerID entries))
    <= length entries.
Proof.
  induction entries as [|hashStr rest [IH IHlen]].
  - split; [by constructor|done].
  - cbn [handleDataRequest_range].
    destruct (DecodeString hashStr) as [hash|] eqn:Hd;
      [|split; [by repeat constructor|simpl; lia]].
    destruct (FindBlock m hash) as [block|] eqn:Hf;
      [|split; [by repeat constructor|simpl; lia]].
    destruct (EncodeToBytes m (eb_Block block)) as [payload|] eqn:He;
      [|split; [by repeat constructor|simpl; lia]].
    split.
    + constructor; [done|]. constructor.
      * cbn. split; [done|]. split; [done|]. intros _.
        exists hashStr, (mkDataResponse ChannelIDBlock payload).
        split; [done|]. split; [apply list_elem_of_here|].
        unfold serve. by rewrite Hd, Hf, He.
      * eapply Forall_impl; [exact IH|]. cbn.
        intros e (H1 & H2 & H3). split; [done|]. split; [done|].
        intros Hs. destruct (H3 Hs) as (h & resp & -> & Hin & Hserve).
        exists h, resp. split; [done|]. split; [by right|done].
    + unfold sentData in *. cbn [omap list_omap length]. lia.
Qed.

(** X15.  Whatever a data request holds, every data response the handler
    sends goes to the requesting peer alone and carries what [serve] makes
    of one of the requested entries (the encoding of the block found under
    that hash); there are never more responses than entries, none at all
    on another channel than the block channel, and nothing is handed to the
    request manager or to the consumer. *)
Theorem handleDataRequest_serves_only_requested (m : SyncManager)
    (peerID : string) (data : DataRequest) :
  let tr := handleDataRequest m peerID data in
  (∀ peerIDs resp,
     SendData peerIDs resp ∈ tr →
     peerIDs = [peerID] ∧ dreq_ChannelID data = ChannelIDBlock ∧
     ∃ h, h ∈ dreq_Entries data ∧ serve m h = Some resp) ∧
  length (sentData tr) <= length (dreq_Entries data) ∧
  (dreq_ChannelID data ≠ ChannelIDBlock → sentData tr = []) ∧
  sentInventories tr = [] ∧ registered tr = [] ∧ resolved tr = [] ∧
  consumed tr = [].
Proof.
  intros tr. subst tr. unfold handleDataRequest.
  destruct (dreq_ChannelID data) eqn:Hc;
    try (split; [intros ps resp Hin; rewrite !elem_of_cons, elem_of_nil in Hin;
                 by destruct Hin as [?|[]]|];
         split; [cbn; lia|by repeat split]).
  destruct (handleDataRequest_range_shape m peerID (dreq_Entries data))
    as [Hshape Hlen].
  split; [|split; [done|split; [done|]]].
  - intros ps resp Hin.
    destruct (proj1 (Forall_forall _ _) Hshape _ Hin) as (_ & _ & Hs).
    destruct (Hs eq_refl) as (h & resp' & E & Hh & Hserve).
    injection E as -> ->. split; [done|]. split; [done|]. by exists h.
  - assert (Forall (λ e, isHandOff e = false)
              (handleDataRequest_range m peerID (dreq_Entries data))) as Hno.
    { eapply Forall_impl; [exact Hshape|]. by intros e (? & _). }
    destruct (no_hand_offs _ Hno) as (E1 & E2 & E3).
    split; [|done].
    clear -Hshape. induction Hshape as [|e tr (He & _ & Hs) _ IH]; [done|].
    unfold sentInventories in *. cbn [omap list_omap]. rewrite IH.
    destruct e; try done. destruct (Hs eq_refl) as (? & ? & ? & _). done.
Qed.

(** X16.  A block served in answer to a data request comes back as that
    block: when the codec of the receiver decodes what the codec of the
    sender encodes, every data response sent by [handleDataRequest] makes
    the receiving [handleDataResponse] hand to the request manager exactly
    the block the sender found under one of the requested hashes. *)
Theorem handleDataRequest_response_resolves (m m' : SyncManager)
    (peerID sender : string) (data : DataRequest) (resp : DataResponse) :
  (∀ hash eb payload,
     FindBlock m hash = Some eb →
     EncodeToBytes m (eb_Block eb) = Some payload →
     DecodeBlock m' payload = Some (eb_Block eb)) →
  resp ∈ sentData (handleDataRequest m peerID data) →
  ∃ hashStr hash eb,
    hashStr ∈ dreq_Entries data ∧
    DecodeString hashStr = Some hash ∧
    FindBlock m hash = Some eb ∧
    handleDataResponse m' sender resp = handleBlock (eb_Block eb) ∧
    resolved (handleDataResponse m' sender resp) = [eb_Block eb].
Proof.
  intros Hcodec Hin. apply elem_of_sentData in Hin as [ps Hin].
  unfold handleDataRequest in Hin.
  destruct (dreq_ChannelID data);
    try (rewrite !elem_of_cons, elem_of_nil in Hin; by destruct Hin as [?|[]]).
  destruct (handleDataRequest_range_shape m peerID (dreq_Entries data))
    as [Hshape _].
  destruct (proj1 (Forall_forall _ _) Hshape _ Hin) as (_ & _ & Hs).
  destruct (Hs eq_refl) as (h & resp' & E & Hh & Hserve).
  injection E as -> <-. unfold serve in Hserve.
  destruct (DecodeString h) as [hash|] eqn:Hd; [|done].
  destruct (FindBlock m hash) as [eb|] eqn:Hf; [|done].
  destruct (EncodeToBytes m (eb_Block eb)) as [payload|] eqn:He; [|done].
  injection Hserve as <-.
  exists h, hash, eb. split; [done|]. split; [done|]. split; [done|].
  unfold handleDataResponse. cbn [dresp_ChannelID Payload].
  by rewrite (Hcodec hash eb payload Hf He).
Qed.

(** The block of hash 00 of the unbounded chain, asked for and received. *)
Lemma handleDataRequest_response_resolves_witness :
  let m := ChainFixtures.lineChain 50 in
  let resp := mkDataResponse ChannelIDBlock [Byte.x00] in
  resp ∈ sentData (handleDataRequest m "peer"
                     (mkDataRequest ChannelIDBlock ["00"])) ∧
  ∃ hashStr hash eb,
    hashStr ∈ ["00"] ∧
    DecodeString hashStr = Some hash ∧
    FindBlock m hash = Some eb ∧
    handleDataResponse m "sender" resp = handleBlock (eb_Block eb) ∧
    resolved (handleDataResponse m "sender" resp) = [eb_Block eb].
Proof.
  intros m resp.
  assert (resp ∈ sentData (handleDataRequest m "peer"
                             (mkDataRequest ChannelIDBlock ["00"]))) as Hin
    by (vm_compute; apply list_elem_of_here).
  split; [exact Hin|].
  apply (handleDataRequest_response_resolves m m "peer" "sender"
           (mkDataRequest ChannelIDBlock ["00"]) resp); [|exact Hin].
  intros hash eb payload Hf He. cbn in Hf, He |- *.
  injection Hf as <-. cbn in He. injection He as <-. reflexivity.
Defined.

(** ** Data responses *)

Lemma projections_app (tr1 tr2 : Trace) :
  registered (tr1 ++ tr2) = registered tr1 ++ registered tr2 ∧
  resolved (tr1 ++ tr2) = resolved tr1 ++ resolved tr2 ∧
  consumed (tr1 ++ tr2) = consumed tr1 ++ consumed tr2.
Proof. unfold registered, resolved, consumed. by rewrite !omap_app. Qed.

Lemma elem_of_registered (tr : Trace) (h : Bytes) (ps : list string) :
  (h, ps) ∈ registered tr ↔ AddHash h ps ∈ tr.
Proof.
  unfold registered. rewrite list_elem_of_omap. split.
  - intros (e & He & Hr). destruct e; try discriminate.
    by injection Hr as -> ->.
  - intros Hin. by exists (AddHash h ps).
Qed.

(** The votes of a certificate go to the consumer, in order, and to
    nobody else. *)
Lemma handleCC_projections (cc : CommitCertificate) :
  consumed (handleCC cc) = ConsumedVote <$> Votes cc ∧
  registered (handleCC cc) = [] ∧
  resolved (handleCC cc) = [] ∧
  Forall (λ e, isSend e = false ∧ ∀ h ps, e = AddHash h ps → ps = [])
         (handleCC cc).
Proof.
  unfold handleCC, consumed, registered, resolved.
  induction (Votes cc) as [|v vs (I1 & I2 & I3 & I4)]; [by repeat split|].
  cbn [fmap list_fmap omap list_omap]. rewrite I2, I3.
  split; [by f_equal|]. split; [done|]. split; [done|].
  constructor; [|done]. split; [done|]. intros h ps E. discriminate.
Qed.

(** Whatever a data response carries, handling it sends nothing and
    registers no hash with a candidate peer. *)
Lemma handleDataResponse_shape (m : SyncManager) (peerID : string)
    (data : DataResponse) :
  Forall (λ e, isSend e = false ∧ ∀ h ps, e = AddHash h ps → ps = [])
         (handleDataResponse m peerID data).
Proof.
  assert (∀ lvl msg, isSend (Log lvl msg) = false ∧
                     ∀ h ps, Log lvl msg = AddHash h ps → ps = [])
    as Hlog by (intros; split; [done|discriminate]).
  unfold handleDataResponse.
  destruct (dresp_ChannelID data); try by repeat constructor.
  - destruct (DecodeBlock m (Payload data)) as [block|];
      [|by repeat constructor].
    unfold handleBlock. repeat constructor; try done; discriminate.
  - destruct (DecodeProposal m (Payload data)) as [proposal|];
      [|by repeat constructor].
    unfold handleProposal. apply Forall_app. split.
    + destruct (prop_CommitCertificate proposal) as [cc|];
        [apply handleCC_projections|by constructor].
    + unfold handleBlock. repeat constructor; try done; discriminate.
  - destruct (DecodeVote m (Payload data)) as [vote|];
      [|by repeat constructor].
    unfold handleVote. apply Forall_app. split.
    + destruct (vote_Block vote) as [b|]; [|by constructor].
      repeat constructor. intros h ps E. by injection E as _ <-.
    + repeat constructor. discriminate.
Qed.

(** X17.  Handling a data response never sends anything to a peer, never
    registers a hash together with a candidate peer, and hands at most one
    block to the request manager.  A payload the codec of its channel
    cannot decode, and a response on a channel other than block, vote and
    proposal, leave a single error log and nothing else. *)
Theorem handleDataResponse_stays_local (m : SyncManager) (peerID : string)
    (data : DataResponse) :
  let tr := handleDataResponse m peerID data in
  sentData tr = [] ∧ sentInventories tr = [] ∧
  (∀ h ps, (h, ps) ∈ registered tr → ps = []) ∧
  length (resolved tr) <= 1 ∧
  (match dresp_ChannelID data with
   | ChannelIDBlock => DecodeBlock m (Payload data) = None
   | ChannelIDVote => DecodeVote m (Payload data) = None
   | ChannelIDProposal => DecodeProposal m (Payload data) = None
   | _ => True
   end →
   ∃ msg, tr = [Log Error msg]).
Proof.
  intros tr. subst tr.
  pose proof (handleDataResponse_shape m peerID data) as Hshape.
  assert (Forall (λ e, isSend e = false) (handleDataResponse m peerID data))
    as Hns by (eapply Forall_impl; [exact Hshape|]; by intros e [? _]).
  destruct (no_sends _ Hns) as [E1 E2].
  split; [done|]. split; [done|]. split; [|split].
  - intros h ps Hin. apply elem_of_registered in Hin.
    destruct (proj1 (Forall_forall _ _) Hshape _ Hin) as [_ Hps].
    by apply (Hps h ps).
  - unfold handleDataResponse.
    destruct (dresp_ChannelID data); try (cbn; lia).
    + destruct (DecodeBlock m (Payload data)); cbn; lia.
    + destruct (DecodeProposal m (Payload data)) as [proposal|];
        [|cbn; lia].
      unfold handleProposal.
      rewrite (proj1 (proj2 (projections_app _ _))).
      destruct (prop_CommitCertificate proposal) as [cc|].
      * rewrite (proj1 (proj2 (proj2 (handleCC_projections cc)))). cbn. lia.
      * cbn. lia.
    + destruct (DecodeVote m (Payload data)) as [vote|]; [|cbn; lia].
      unfold handleVote. destruct (vote_Block vote); cbn; lia.
  - unfold handleDataResponse.
    destruct (dresp_ChannelID data); try (intros _; by eexists);
      intros ->; by eexists.
Qed.

(** A block response whose payload does not decode. *)
Lemma handleDataResponse_stays_local_witness :
  let tr := handleDataResponse CodecFixtures.codecManager "peer"
              (mkDataResponse ChannelIDBlock [Byte.x02]) in
  sentData tr = [] ∧ sentInventories tr = [] ∧
  ∃ msg, tr = [Log Error msg].
Proof.
  intros tr.
  destruct (handleDataResponse_stays_local CodecFixtures.codecManager "peer"
              (mkDataResponse ChannelIDBlock [Byte.x02]))
    as (E1 & E2 & _ & _ & Hdrop).
  split; [exact E1|]. split; [exact E2|]. apply Hdrop. reflexivity.
Defined.

(** X18.  A data response on the proposal channel whose payload decodes
    makes the handler pass every vote of the proposal's commit certificate
    (when it has one) to the consumer, in the order of the certificate, and
    then hand the proposal's block to the request manager, as its last
    call; no hash is registered for those votes. *)
Theorem handleDataResponse_proposal (m : SyncManager) (peerID : string)
    (data : DataResponse) (proposal : Proposal) :
  dresp_ChannelID data = ChannelIDProposal →
  DecodeProposal m (Payload data) = Some proposal →
  let tr := handleDataResponse m peerID data in
  consumed tr
    = ConsumedVote <$> (if prop_CommitCertificate proposal is Some cc
                        then Votes cc else []) ∧
  resolved tr = [prop_Block proposal] ∧
  registered tr = [] ∧
  last tr = Some (AddBlock (prop_Block proposal)).
Proof.
  intros Hc Hd tr. subst tr. unfold handleDataResponse.
  rewrite Hc, Hd. unfold handleProposal.
  rewrite (proj1 (projections_app _ _)),
    (proj1 (proj2 (projections_app _ _))),
    (proj2 (proj2 (projections_app _ _))).
  assert (last (match prop_CommitCertificate proposal with
                | Some cc => handleCC cc
                | None => []
                end ++ handleBlock (prop_Block proposal))
          = Some (AddBlock (prop_Block proposal))) as Hlast.
  { unfold handleBlock. by rewrite last_app. }
  destruct (prop_CommitCertificate proposal) as [cc|].
  - destruct (handleCC_projections cc) as (-> & -> & -> & _).
    cbn. by rewrite app_nil_r.
  - done.
Qed.

(** The proposal of the example codec: two votes, then the block. *)
Lemma handleDataResponse_proposal_witness :
  let tr := handleDataResponse CodecFixtures.codecManager "peer"
              (mkDataResponse ChannelIDProposal [Byte.x01]) in
  consumed tr = [ConsumedVote CodecFixtures.vote1;
                 ConsumedVote CodecFixtures.vote2] ∧
  resolved tr = [CodecFixtures.blockX] ∧
  registered tr = [] ∧
  last tr = Some (AddBlock CodecFixtures.blockX).
Proof.
  apply (handleDataResponse_proposal CodecFixtures.codecManager "peer"
           (mkDataResponse ChannelIDProposal [Byte.x01])
           CodecFixtures.proposalX); reflexivity.
Defined.

(** ** Dispatch *)

(** X19.  Whatever message [processMessage] handles without a panic, all
    it sends goes to the peer the message came from and to no other, and
    every hash it registers names that peer as the one candidate or no
    candidate at all. *)
Theorem processMessage_concerns_origin_only (m : SyncManager)
    (message : Message) (tr : Trace) :
  processMessage m message = Ok tr →
  Forall (concernsOnly (PeerID message)) tr.
Proof.
  unfold processMessage.
  destruct (msg_Content message) as [req|resp|data|data|]; intros Hrun;
    [injection Hrun as <-..|done].
  - destruct (handleInvRequest_result m (PeerID message) req)
      as [Hlogs|(start & hs & _ & _ & E & _)].
    + by destruct (only_logs (PeerID message) _ Hlogs) as (_ & _ & _ & _ & _ & ?).
    + rewrite E. unfold sendInventory. by repeat constructor.
  - unfold handleInvResponse. constructor; [done|].
    destruct (iresp_ChannelID resp); try by repeat constructor.
    eapply Forall_impl; [apply handleInvResponse_range_shape|].
    by intros e (_ & ? & _).
  - unfold handleDataRequest.
    destruct (dreq_ChannelID data); try by repeat constructor.
    destruct (handleDataRequest_range_shape m (PeerID message)
                (dreq_Entries data)) as [Hshape _].
    eapply Forall_impl; [exact Hshape|]. by intros e (_ & ? & _).
  - eapply Forall_impl; [apply handleDataResponse_shape|].
    intros e [Hs Hps]. destruct e; try done.
    left. by apply (Hps hash peerIDs).
Qed.

(** A data request for 0a and 0b from "peer": both answers go to "peer". *)
Lemma processMessage_concerns_origin_only_witness :
  ∃ tr,
    processMessage (ChainFixtures.chainABC 50)
      (mkMessage "peer" ChannelIDBlock
         (ContentDataRequest (mkDataRequest ChannelIDBlock ["0a"; "0b"])))
    = Ok tr ∧
    length (sentData tr) = 2 ∧
    Forall (concernsOnly "peer") tr.
Proof.
  eexists. split; [reflexivity|]. split; [reflexivity|].
  exact (processMessage_concerns_origin_only (ChainFixtures.chainABC 50)
           (mkMessage "peer" ChannelIDBlock
              (ContentDataRequest (mkDataRequest ChannelIDBlock ["0a"; "0b"])))
           _ eq_refl).
Defined.

(** * Eviction and seeds *)

(** X20.  On a well-formed registry one [PurgeOldestPeer] never takes a
    seed out of the identity map: the peer it returns is a registered
    non-seed peer, and every seed that [GetPeer] found before the call is
    still found after it (the sequence loses its first slot all the same,
    whichever peer holds it). *)
Theorem PurgeOldestPeer_keeps_seeds_findable (w : World) (s : ptr) :
  wf w →
  IsSeed (heap w) s = true →
  GetPeer (ID (heap w) s) w = Some s →
  GetPeer (ID (heap w) s) (PurgeOldestPeer w).2 = Some s ∧
  ∀ p, (PurgeOldestPeer w).1 = Some p →
       p ∈ GetAllPeers w ∧ IsSeed (heap w) p = false ∧ p ≠ s.
Proof.
  intros ((Hseq & _) & _) Hseed Hget. unfold GetPeer, GetAllPeers in *.
  unfold PurgeOldestPeer. rewrite Purge_range_last.
  destruct (last (filter (λ q, IsSeed (heap w) q = false) (peers (table w))))
    as [p|] eqn:Hlast; cbn [fst snd table peerMap]; [|done].
  apply last_Some_elem_of, list_elem_of_filter in Hlast as [Hp Hin].
  assert (p ≠ s) as Hne by (intros ->; congruence).
  split.
  - rewrite lookup_delete_ne; [done|]. intros E.
    destruct (Hseq p Hin) as [Hpm _]. unfold inPeerMap in Hpm.
    rewrite E, Hget in Hpm. congruence.
  - intros q Hq. injection Hq as <-. done.
Qed.

(** The registry of the seed 1 and the non-seed 2: peer 2 is purged, the
    seed is still found. *)
Lemma PurgeOldestPeer_keeps_seeds_findable_witness :
  GetPeer "A" (PurgeOldestPeer Fixtures.world12).2 = Some 1 ∧
  ∀ p, (PurgeOldestPeer Fixtures.world12).1 = Some p →
       p ∈ [1; 2] ∧ IsSeed Fixtures.heap0 p = false ∧ p ≠ 1.
Proof.
  apply (PurgeOldestPeer_keeps_seeds_findable Fixtures.world12 1).
  - destruct (run_wf [OpAddPeer 1; OpAddPeer 2] Fixtures.world0
                (CreatePeerTable_wf Fixtures.heap0)) as (w' & Hrun & Hwf).
    + cbn. repeat split; reflexivity.
    + vm_compute in Hrun. injection Hrun as <-. exact Hwf.
  - reflexivity.
  - reflexivity.
Defined.
